(** * go-dictd: the request tokenizer, parser and connection loop of socket.go

    A shallow embedding of [src/dictd/socket.go] and the properties of its
    tokenizer ([consumeAtom], [consumeString], [cleanup], [tokenizeLine]),
    parser ([parseLine]), dispatcher ([handleCommand]), response writer
    ([WriteTextBlock]) and read loop ([Handle]).

    Modelling conventions.
    - A Go [string] is a sequence of bytes: [bytes := list ascii].
    - [for i, el := range buf] walks the runes of [buf].  Every rune the
      switches compare against (space, the two quotes, the backslash) is
      ASCII, an ASCII byte is never part of a multi-byte rune, and the
      escape flag is only read on such a byte, so the walk is modelled byte
      by byte with [i] the byte index.  [tokenizeLine], the one caller of
      [consumeString], passes a quote character as [quote], which is ASCII
      too.
    - A Go function returning [(values, err)] returns a [result]: [Ok v] for
      [err == nil], [Err e] for a non-nil [err] (the other results are then
      the zero values the source returns), [Panic] for a run-time panic
      (index out of range). *)

From Stdlib Require Import List Ascii Bool Arith Lia.
From Stdlib Require String.
Import String.StringSyntax.
From Equations Require Import Equations.
Import ListNotations.

(** ** Bytes and results *)

Definition bytes := list ascii.

(** A Go string literal without special characters. *)
Definition lit (s : String.string) : bytes := String.list_ascii_of_string s.
Arguments lit s%_string_scope.

(** The characters the source names: space, tab, line feed, carriage
    return, double quote, single quote, backslash and dot. *)
Definition SP : ascii := "032"%char.
Definition TAB : ascii := "009"%char.
Definition LF : ascii := "010"%char.
Definition CR : ascii := "013"%char.
Definition DQUOTE : ascii := "034"%char.
Definition SQUOTE : ascii := "039"%char.
Definition BACKSLASH : ascii := "092"%char.
Definition DOT : ascii := "046"%char.

Definition error := bytes.

Inductive result (A : Type) : Type :=
| Ok (a : A)
| Err (e : error)
| Panic.
Arguments Ok {A} a.
Arguments Err {A} e.
Arguments Panic {A}.

(** ** The strings package, as far as socket.go uses it *)

Module strings.

Definition in_cutset (cutset : bytes) (c : ascii) : bool :=
  existsb (Ascii.eqb c) cutset.

Fixpoint TrimLeft (s cutset : bytes) : bytes :=
  match s with
  | [] => []
  | c :: s' => if in_cutset cutset c then TrimLeft s' cutset else s
  end.

Definition TrimRight (s cutset : bytes) : bytes :=
  rev (TrimLeft (rev s) cutset).

(** [strings.Trim(s, cutset)] for an ASCII cutset. *)
Definition Trim (s cutset : bytes) : bytes :=
  TrimRight (TrimLeft s cutset) cutset.

(** [strings.Replace] of the backslash by the empty string, with no
    limit on the count: every backslash byte is dropped. *)
Definition Replace_backslash (s : bytes) : bytes :=
  filter (fun c => negb (Ascii.eqb c BACKSLASH)) s.

Definition upper_byte (c : ascii) : ascii :=
  let n := nat_of_ascii c in
  if (97 <=? n) && (n <=? 122) then ascii_of_nat (n - 32) else c.

(** [strings.ToUpper] on ASCII text, where it maps the letters [a] to
    [z] to upper case byte by byte.  On other text Go also maps the
    letters beyond ASCII and rewrites invalid UTF-8, which can change the
    length; this model leaves the bytes above 127 as they are, so what is
    proved of the bytes of an upper-cased string is stated for ASCII
    input. *)
Definition ToUpper (s : bytes) : bytes := map upper_byte s.

End strings.

(** ** The tokenizer *)

Definition cleanup (el : bytes) : bytes :=
  strings.Trim el [SP; TAB; CR; LF].

(** The [range] loop of [consumeAtom]; [rest] is [buf[i:]]. *)
Fixpoint consumeAtom_range (buf : bytes) (i : nat) (rest : bytes)
  : result (bytes * bytes) :=
  match rest with
  | [] => Ok (buf, [])
  | el :: rest' =>
      if Ascii.eqb el SP then Ok (firstn i buf, cleanup (skipn i buf))
      else consumeAtom_range buf (S i) rest'
  end.

Definition consumeAtom (buf : bytes) : result (bytes * bytes) :=
  consumeAtom_range buf 0 buf.

Definition bad_char : error := lit "bad char".

(** The [range] loop of [consumeString]; [rest] is [buf[i:]] and [escape]
    the flag on entry of the iteration.  [quote[0]] is evaluated by the
    switch of every iteration and panics on an empty [quote]. *)
Fixpoint consumeString_range (quote buf : bytes) (escape : bool) (i : nat)
  (rest : bytes) : result (bytes * bytes) :=
  match rest with
  | [] => Ok (buf, [])
  | el :: rest' =>
      match quote with
      | [] => Panic
      | q0 :: _ =>
          if Ascii.eqb el q0 then
            if negb escape
            then Ok (strings.Replace_backslash (firstn i buf),
                     cleanup (skipn (S i) buf))
            else consumeString_range quote buf false (S i) rest'
          else if Ascii.eqb el BACKSLASH then
            consumeString_range quote buf true (S i) rest'
          else if Ascii.eqb el SQUOTE || Ascii.eqb el DQUOTE then
            if negb escape
            then Err bad_char
            else consumeString_range quote buf false (S i) rest'
          else consumeString_range quote buf false (S i) rest'
      end
  end.

Definition consumeString (quote buf : bytes) : result (bytes * bytes) :=
  consumeString_range quote buf false 0 buf.

(** One iteration of the loop of [tokenizeLine] on the non-empty line
    [leader :: tail]: the token and the new value of [line]. *)
Definition next_token (leader : ascii) (tail : bytes) : result (bytes * bytes) :=
  if Ascii.eqb leader DQUOTE || Ascii.eqb leader SQUOTE
  then consumeString [leader] tail
  else consumeAtom (leader :: tail).

(** *** Every iteration shortens the line *)

Lemma TrimLeft_length (s cutset : bytes) :
  length (strings.TrimLeft s cutset) <= length s.
Proof.
  induction s as [|c s IH]; simpl; [lia|].
  destruct (strings.in_cutset cutset c); simpl; lia.
Qed.

Lemma cleanup_length (el : bytes) : length (cleanup el) <= length el.
Proof.
  unfold cleanup, strings.Trim, strings.TrimRight.
  rewrite length_rev.
  etransitivity; [apply TrimLeft_length|].
  rewrite length_rev. apply TrimLeft_length.
Qed.

Lemma cleanup_space_length (el : bytes) :
  length (cleanup (SP :: el)) <= length el.
Proof.
  unfold cleanup, strings.Trim, strings.TrimRight.
  rewrite length_rev.
  etransitivity; [apply TrimLeft_length|].
  rewrite length_rev. simpl. apply TrimLeft_length.
Qed.

Lemma consumeAtom_range_shorter (buf rest : bytes) (i : nat) token line' :
  skipn i buf = rest -> buf <> [] ->
  consumeAtom_range buf i rest = Ok (token, line') ->
  length line' < length buf.
Proof.
  revert i. induction rest as [|el rest IH]; intros i Hskip Hne; simpl.
  - intros H. injection H as <- <-. destruct buf; [congruence | simpl; lia].
  - destruct (Ascii.eqb_spec el SP) as [->|_].
    + intros H. injection H as <- <-. rewrite Hskip.
      pose proof (cleanup_space_length rest) as Hc.
      assert (Hl : length (skipn i buf) = S (length rest)) by (rewrite Hskip; reflexivity).
      rewrite length_skipn in Hl. lia.
    + apply IH; [|assumption].
      replace (S i) with (1 + i) by lia.
      rewrite <- skipn_skipn, Hskip. reflexivity.
Qed.

Lemma consumeString_range_shorter (quote buf rest : bytes) escape (i : nat) token line' :
  consumeString_range quote buf escape i rest = Ok (token, line') ->
  length line' <= length buf.
Proof.
  revert escape i.
  induction rest as [|el rest IH]; intros escape i; cbn [consumeString_range].
  - intros H. injection H as <- <-. simpl. lia.
  - destruct quote as [|q0 quote]; [discriminate|].
    assert (Hret : forall t, Ok (t, cleanup (skipn (S i) buf)) = Ok (token, line') ->
                        length line' <= length buf).
    { intros t H. injection H as <- <-.
      etransitivity; [apply cleanup_length|].
      destruct buf; simpl; [lia | rewrite length_skipn; lia]. }
    destruct (Ascii.eqb el q0).
    + destruct escape; simpl; [apply IH | apply Hret].
    + destruct (Ascii.eqb el BACKSLASH); [apply IH|].
      destruct (Ascii.eqb el SQUOTE || Ascii.eqb el DQUOTE); [|apply IH].
      destruct escape; simpl; [apply IH | discriminate].
Qed.

Lemma next_token_shorter (leader : ascii) (tail : bytes) token line' :
  next_token leader tail = Ok (token, line') ->
  length line' < length (leader :: tail).
Proof.
  unfold next_token.
  destruct (Ascii.eqb leader DQUOTE || Ascii.eqb leader SQUOTE).
  - intros H. apply consumeString_range_shorter in H. simpl. lia.
  - apply consumeAtom_range_shorter; [reflexivity | discriminate].
Qed.

Definition inspect {A : Type} (a : A) : {b : A | a = b} := exist _ a eq_refl.

(** The loop of [tokenizeLine]: [line] is the loop variable, [tokens] the
    slice built by [append]. *)
Equations? tokenizeLine_loop (line : bytes) (tokens : list bytes)
  : result (list bytes) by wf (length line) lt :=
  tokenizeLine_loop [] tokens := Ok tokens;
  tokenizeLine_loop (cons leader after) tokens with inspect (next_token leader after) => {
    | exist _ (Ok (token, line')) Heq := tokenizeLine_loop line' (tokens ++ [token]);
    | exist _ (Err err) _ := Err err;
    | exist _ Panic _ := Panic }.
Proof.
  apply (next_token_shorter _ _ _ _ Heq).
Qed.

Definition tokenizeLine (line : bytes) : result (list bytes) :=
  tokenizeLine_loop line [].


(** ** The parser *)

(** The [Command] struct (its declaration is in another file of the
    package): the verb, field [Command] in the source, and [Params]. *)
Record Command : Type := mkCommand {
  Command_ : bytes;
  Params : list bytes
}.

(** [tokens[0]] panics on an empty slice. *)
Definition parseLine (line : bytes) : result Command :=
  match tokenizeLine line with
  | Err err => Err err
  | Panic => Panic
  | Ok tokens =>
      match tokens with
      | [] => Panic
      | first :: others =>
          Ok {| Command_ := strings.ToUpper first; Params := others |}
      end
  end.


(** * Properties of the tokenizer and of the parser *)

(** ** The loop of the tokenizer *)

Lemma tokenizeLine_loop_cons (leader : ascii) (after : bytes) (tokens : list bytes) :
  tokenizeLine_loop (leader :: after) tokens =
  match next_token leader after with
  | Ok (token, line') => tokenizeLine_loop line' (tokens ++ [token])
  | Err err => Err err
  | Panic => Panic
  end.
Proof.
  rewrite tokenizeLine_loop_equation_2.
  destruct (inspect (next_token leader after)) as [r Heq].
  destruct r as [[token line']|err|]; cbn; rewrite Heq; reflexivity.
Qed.

(** Induction on the loop: a property of all lines follows from the empty
    line and from one iteration. *)
Lemma line_ind (P : bytes -> Prop) :
  P [] ->
  (forall leader after,
      (forall token line', next_token leader after = Ok (token, line') -> P line') ->
      P (leader :: after)) ->
  forall line, P line.
Proof.
  intros Hnil Hcons line.
  remember (length line) as n eqn:Hn.
  revert line Hn. induction n as [n IH] using lt_wf_ind. intros line Hn.
  destruct line as [|leader after]; [exact Hnil|].
  apply Hcons. intros token line' Heq.
  apply (IH (length line')); [|reflexivity].
  subst n. apply (next_token_shorter _ _ _ _ Heq).
Qed.

Definition is_quote (c : ascii) : bool :=
  Ascii.eqb c SQUOTE || Ascii.eqb c DQUOTE.

Lemma next_token_quote (leader : ascii) (after : bytes) :
  is_quote leader = true -> next_token leader after = consumeString [leader] after.
Proof.
  unfold next_token, is_quote. rewrite orb_comm. intros ->. reflexivity.
Qed.

Lemma next_token_atom (leader : ascii) (after : bytes) :
  is_quote leader = false -> next_token leader after = consumeAtom (leader :: after).
Proof.
  unfold next_token, is_quote. rewrite orb_comm. intros ->. reflexivity.
Qed.

Lemma consumeAtom_range_ok (buf rest : bytes) (i : nat) :
  exists token line', consumeAtom_range buf i rest = Ok (token, line').
Proof.
  revert i. induction rest as [|el rest IH]; intros i; simpl; [eauto|].
  destruct (Ascii.eqb el SP); eauto.
Qed.

Lemma consumeString_range_no_panic (q0 : ascii) (buf rest : bytes) escape (i : nat) :
  consumeString_range [q0] buf escape i rest <> Panic.
Proof.
  revert escape i.
  induction rest as [|el rest IH]; intros escape i; cbn [consumeString_range];
    [discriminate|].
  destruct (Ascii.eqb el q0); [destruct escape; simpl; [apply IH | discriminate]|].
  destruct (Ascii.eqb el BACKSLASH); [apply IH|].
  destruct (Ascii.eqb el SQUOTE || Ascii.eqb el DQUOTE); [|apply IH].
  destruct escape; simpl; [apply IH | discriminate].
Qed.

Lemma next_token_no_panic (leader : ascii) (after : bytes) :
  next_token leader after <> Panic.
Proof.
  unfold next_token.
  destruct (Ascii.eqb leader DQUOTE || Ascii.eqb leader SQUOTE).
  - apply consumeString_range_no_panic.
  - destruct (consumeAtom_range_ok (leader :: after) (leader :: after) 0)
      as (token & line' & H).
    unfold consumeAtom. rewrite H. discriminate.
Qed.

(** The tokens built so far are only ever extended. *)
Lemma tokenizeLine_loop_acc (line : bytes) :
  forall tokens,
    tokenizeLine_loop line tokens =
    match tokenizeLine_loop line [] with
    | Ok ts => Ok (tokens ++ ts)
    | Err err => Err err
    | Panic => Panic
    end.
Proof.
  induction line as [|leader after IH] using line_ind; intros tokens.
  - rewrite !tokenizeLine_loop_equation_1, app_nil_r. reflexivity.
  - rewrite !tokenizeLine_loop_cons.
    destruct (next_token leader after) as [[token line']|err|] eqn:Heq; try reflexivity.
    rewrite (IH _ _ eq_refl (tokens ++ [token])), (IH _ _ eq_refl ([] ++ [token])).
    destruct (tokenizeLine_loop line' []); try reflexivity.
    rewrite <- app_assoc. reflexivity.
Qed.

Lemma tokenizeLine_nil : tokenizeLine [] = Ok [].
Proof. unfold tokenizeLine. apply tokenizeLine_loop_equation_1. Qed.

Lemma tokenizeLine_cons (leader : ascii) (after : bytes) :
  tokenizeLine (leader :: after) =
  match next_token leader after with
  | Ok (token, line') =>
      match tokenizeLine line' with
      | Ok ts => Ok (token :: ts)
      | Err err => Err err
      | Panic => Panic
      end
  | Err err => Err err
  | Panic => Panic
  end.
Proof.
  unfold tokenizeLine. rewrite tokenizeLine_loop_cons.
  destruct (next_token leader after) as [[token line']|err|]; try reflexivity.
  apply tokenizeLine_loop_acc.
Qed.

Lemma tokenizeLine_no_panic (line : bytes) : tokenizeLine line <> Panic.
Proof.
  induction line as [|leader after IH] using line_ind.
  - rewrite tokenizeLine_nil. discriminate.
  - rewrite tokenizeLine_cons.
    destruct (next_token leader after) as [[token line']|err|] eqn:Heq.
    + specialize (IH _ _ eq_refl). destruct (tokenizeLine line'); congruence.
    + discriminate.
    + exfalso. apply (next_token_no_panic _ _ Heq).
Qed.

(** ** The escape flag of the code

    The escape flag of [consumeString] is set by a backslash, also by one
    that is itself escaped, and cleared by every other byte that does not
    end the scan, so on entry of the iteration at index [k] it says
    whether the byte at [k - 1] is a backslash; [esc0] is the flag on entry
    of the scan.  The predicates below follow this flag: they say what
    the scan of the code takes for an unescaped quote, which is not always
    what the specification takes for one ([spec_flag_at] below). *)

Definition flag_at (esc0 : bool) (buf : bytes) (k : nat) : bool :=
  match k with
  | 0 => esc0
  | S j =>
      match nth_error buf j with
      | Some c => Ascii.eqb c BACKSLASH
      | None => false
      end
  end.

Definition unescaped_quote_at (esc0 : bool) (buf : bytes) (k : nat) (c : ascii) : Prop :=
  nth_error buf k = Some c /\ is_quote c = true /\ flag_at esc0 buf k = false.

Definition first_unescaped_quote (esc0 : bool) (buf : bytes) (k : nat) (c : ascii) : Prop :=
  unescaped_quote_at esc0 buf k c /\
  forall j c', j < k -> ~ unescaped_quote_at esc0 buf j c'.

Definition no_unescaped_quote (esc0 : bool) (buf : bytes) : Prop :=
  forall j c', ~ unescaped_quote_at esc0 buf j c'.

Lemma is_quote_not_backslash (c : ascii) :
  is_quote c = true -> Ascii.eqb c BACKSLASH = false.
Proof.
  unfold is_quote. intros H. apply orb_true_iff in H.
  destruct H as [H|H]; apply Ascii.eqb_eq in H; subst; reflexivity.
Qed.

Lemma flag_at_shift (esc0 : bool) (el : ascii) (rest : bytes) (j : nat) :
  flag_at esc0 (el :: rest) (S j) = flag_at (Ascii.eqb el BACKSLASH) rest j.
Proof. destruct j; reflexivity. Qed.

Lemma unescaped_quote_at_shift esc0 el rest j c :
  unescaped_quote_at esc0 (el :: rest) (S j) c <->
  unescaped_quote_at (Ascii.eqb el BACKSLASH) rest j c.
Proof.
  unfold unescaped_quote_at. rewrite flag_at_shift. reflexivity.
Qed.

Lemma first_unescaped_quote_shift esc0 el rest k c :
  first_unescaped_quote esc0 (el :: rest) (S k) c ->
  first_unescaped_quote (Ascii.eqb el BACKSLASH) rest k c.
Proof.
  intros [Hq Hbefore]. split.
  - apply -> unescaped_quote_at_shift. exact Hq.
  - intros j c' Hj Hu. apply (Hbefore (S j) c'); [lia|].
    apply <- unescaped_quote_at_shift. exact Hu.
Qed.

Lemma no_unescaped_quote_shift esc0 el rest :
  no_unescaped_quote esc0 (el :: rest) ->
  no_unescaped_quote (Ascii.eqb el BACKSLASH) rest.
Proof.
  intros H j c' Hu. apply (H (S j) c').
  apply <- unescaped_quote_at_shift. exact Hu.
Qed.

(** The scan of a body either meets a first unescaped quote or none. *)
Lemma unescaped_quote_cases (buf : bytes) :
  forall esc0,
    (exists k c, first_unescaped_quote esc0 buf k c) \/ no_unescaped_quote esc0 buf.
Proof.
  induction buf as [|el rest IH]; intros esc0.
  - right. intros j c' (H & _). destruct j; discriminate.
  - destruct (is_quote el && negb esc0) eqn:Hhere.
    + apply andb_true_iff in Hhere. destruct Hhere as [Hq Hesc].
      left. exists 0, el. split.
      * repeat split; [assumption|]. simpl. destruct esc0; [discriminate|reflexivity].
      * intros j c' Hj. lia.
    + assert (Hnot : forall c', ~ unescaped_quote_at esc0 (el :: rest) 0 c').
      { intros c' (Hn & Hq & Hf). simpl in Hn, Hf. injection Hn as <-.
        rewrite Hq, Hf in Hhere. discriminate. }
      destruct (IH (Ascii.eqb el BACKSLASH)) as [(k & c & Hu & Hb)|Hnone].
      * left. exists (S k), c. split.
        -- apply <- unescaped_quote_at_shift. exact Hu.
        -- intros [|j] c' Hj; [apply Hnot|].
           rewrite unescaped_quote_at_shift. apply Hb. lia.
      * right. intros [|j] c'; [apply Hnot|].
        rewrite unescaped_quote_at_shift. apply Hnone.
Qed.

Lemma first_unescaped_quote_unique esc0 buf k c k' c' :
  first_unescaped_quote esc0 buf k c ->
  first_unescaped_quote esc0 buf k' c' ->
  k = k' /\ c = c'.
Proof.
  intros [Hu Hb] [Hu' Hb'].
  assert (k = k').
  { destruct (Nat.lt_total k k') as [Hlt|[Heq|Hlt]]; [|assumption|].
    - exfalso. apply (Hb' _ _ Hlt Hu).
    - exfalso. apply (Hb _ _ Hlt Hu'). }
  subst k'. split; [reflexivity|].
  destruct Hu as (H & _), Hu' as (H' & _). congruence.
Qed.

(** ** What [consumeString] returns *)

(** An iteration that neither returns nor fails moves on with the flag
    saying whether its byte is a backslash. *)
Lemma consumeString_range_skip (q : ascii) (buf rest : bytes) escape (i : nat) el :
  is_quote q = true ->
  is_quote el && negb escape = false ->
  consumeString_range [q] buf escape i (el :: rest) =
  consumeString_range [q] buf (Ascii.eqb el BACKSLASH) (S i) rest.
Proof.
  intros Hq Hel. cbn [consumeString_range].
  destruct (Ascii.eqb_spec el q) as [->|Hne].
  - rewrite Hq in Hel. simpl in Hel. rewrite Hel.
    rewrite (is_quote_not_backslash _ Hq). reflexivity.
  - destruct (Ascii.eqb el BACKSLASH); [reflexivity|].
    fold (is_quote el).
    destruct (is_quote el); [|reflexivity].
    simpl in Hel. rewrite Hel. reflexivity.
Qed.

Lemma not_here (esc0 : bool) (el : ascii) (rest : bytes) :
  (forall c', ~ unescaped_quote_at esc0 (el :: rest) 0 c') ->
  is_quote el && negb esc0 = false.
Proof.
  intros H. destruct (is_quote el) eqn:Hq; [|reflexivity].
  destruct esc0; [reflexivity|].
  exfalso. apply (H el). repeat split. assumption.
Qed.

Lemma consumeString_range_first (q : ascii) (rest : bytes) :
  is_quote q = true ->
  forall pre escape k c,
    first_unescaped_quote escape rest k c ->
    consumeString_range [q] (pre ++ rest) escape (length pre) rest =
    if Ascii.eqb c q
    then Ok (strings.Replace_backslash (firstn (length pre + k) (pre ++ rest)),
             cleanup (skipn (S (length pre + k)) (pre ++ rest)))
    else Err bad_char.
Proof.
  intros Hq. induction rest as [|el rest IH]; intros pre escape k c Hfirst.
  - destruct Hfirst as ((H & _) & _). destruct k; discriminate.
  - destruct k as [|k].
    + destruct Hfirst as ((Hn & Hc & Hf) & _).
      simpl in Hn, Hf. injection Hn as ->. subst escape.
      cbn [consumeString_range]. rewrite Nat.add_0_r.
      destruct (Ascii.eqb c q); [reflexivity|].
      rewrite (is_quote_not_backslash _ Hc).
      fold (is_quote c). rewrite Hc. reflexivity.
    + rewrite consumeString_range_skip; [|assumption|].
      * replace (pre ++ el :: rest) with ((pre ++ [el]) ++ rest)
          by (rewrite <- app_assoc; reflexivity).
        replace (S (length pre)) with (length (pre ++ [el]))
          by (rewrite length_app; simpl; lia).
        rewrite (IH (pre ++ [el]) _ k c (first_unescaped_quote_shift _ _ _ _ _ Hfirst)).
        replace (length (pre ++ [el]) + k) with (length pre + S k)
          by (rewrite length_app; simpl; lia).
        reflexivity.
      * apply (not_here _ _ rest). intros c'. apply (proj2 Hfirst). lia.
Qed.

Lemma consumeString_range_none (q : ascii) (rest : bytes) :
  is_quote q = true ->
  forall pre escape,
    no_unescaped_quote escape rest ->
    consumeString_range [q] (pre ++ rest) escape (length pre) rest =
    Ok (pre ++ rest, []).
Proof.
  intros Hq. induction rest as [|el rest IH]; intros pre escape Hnone.
  - reflexivity.
  - rewrite consumeString_range_skip; [|assumption|].
    + replace (pre ++ el :: rest) with ((pre ++ [el]) ++ rest)
        by (rewrite <- app_assoc; reflexivity).
      replace (S (length pre)) with (length (pre ++ [el]))
        by (rewrite length_app; simpl; lia).
      apply IH. apply (no_unescaped_quote_shift _ _ _ Hnone).
    + apply (not_here _ _ rest). intros c'. apply Hnone.
Qed.

Lemma consumeString_first (q : ascii) (body : bytes) (k : nat) (c : ascii) :
  is_quote q = true ->
  first_unescaped_quote false body k c ->
  consumeString [q] body =
  if Ascii.eqb c q
  then Ok (strings.Replace_backslash (firstn k body), cleanup (skipn (S k) body))
  else Err bad_char.
Proof.
  intros Hq Hfirst.
  apply (@consumeString_range_first q body Hq [] false k c Hfirst).
Qed.

Lemma consumeString_none (q : ascii) (body : bytes) :
  is_quote q = true ->
  no_unescaped_quote false body ->
  consumeString [q] body = Ok (body, []).
Proof.
  intros Hq Hnone.
  apply (@consumeString_range_none q body Hq [] false Hnone).
Qed.

(** ** What [consumeAtom] returns *)

Lemma cleanup_nil : cleanup [] = [].
Proof. reflexivity. Qed.

Lemma consumeAtom_range_split (rest : bytes) :
  forall pre,
  exists token after,
    rest = token ++ after /\
    ~ In SP token /\
    (after = [] \/ exists after', after = SP :: after') /\
    consumeAtom_range (pre ++ rest) (length pre) rest =
    Ok (pre ++ token, cleanup after).
Proof.
  induction rest as [|el rest IH]; intros pre.
  - exists [], []. rewrite !app_nil_r. repeat split; auto.
  - cbn [consumeAtom_range]. destruct (Ascii.eqb_spec el SP) as [->|Hne].
    + exists [], (SP :: rest). rewrite app_nil_r.
      repeat split; eauto.
      rewrite firstn_app, Nat.sub_diag, firstn_all, skipn_app, Nat.sub_diag, skipn_all.
      simpl. rewrite app_nil_r. reflexivity.
    + destruct (IH (pre ++ [el])) as (token & after & Hrest & Hnot & Hafter & Hrun).
      exists (el :: token), after. repeat split.
      * simpl. congruence.
      * intros [Heq|Hin]; [congruence | exact (Hnot Hin)].
      * exact Hafter.
      * rewrite <- app_assoc, length_app in Hrun. simpl in Hrun.
        rewrite Nat.add_1_r in Hrun. rewrite Hrun, <- app_assoc. reflexivity.
Qed.

Lemma consumeAtom_split (buf : bytes) :
  exists token after,
    buf = token ++ after /\
    ~ In SP token /\
    (after = [] \/ exists after', after = SP :: after') /\
    consumeAtom buf = Ok (token, cleanup after).
Proof. apply (consumeAtom_range_split buf []). Qed.

(** ** The states of the loop of [tokenizeLine]

    [reaches line0 line tokens]: started on [line0], the loop comes to its
    head with [line] left to read and [tokens] built. *)

Inductive reaches (line0 : bytes) : bytes -> list bytes -> Prop :=
| reaches_start : reaches line0 line0 []
| reaches_next (leader : ascii) (after : bytes) (tokens : list bytes)
    (token line' : bytes) :
    reaches line0 (leader :: after) tokens ->
    next_token leader after = Ok (token, line') ->
    reaches line0 line' (tokens ++ [token]).

(** [token] is what one iteration of the loop, entered on [line], adds. *)
Definition produced (line0 token : bytes) : Prop :=
  exists leader after tokens line',
    reaches line0 (leader :: after) tokens /\
    next_token leader after = Ok (token, line').

Lemma reaches_result (line0 line : bytes) (tokens : list bytes) :
  reaches line0 line tokens ->
  tokenizeLine_loop line tokens = tokenizeLine line0.
Proof.
  induction 1 as [|leader after tokens token line' _ IH Hnext]; [reflexivity|].
  rewrite tokenizeLine_loop_cons, Hnext in IH. exact IH.
Qed.

Lemma reaches_produced (line0 line : bytes) (tokens : list bytes) :
  reaches line0 line tokens -> Forall (produced line0) tokens.
Proof.
  induction 1 as [|leader after tokens token line' Hreach IH Hnext]; [constructor|].
  apply Forall_app. split; [exact IH|].
  constructor; [|constructor].
  exists leader, after, tokens, line'. split; assumption.
Qed.

Lemma loop_run (line0 line : bytes) :
  forall tokens,
    reaches line0 line tokens ->
    (forall result, tokenizeLine_loop line tokens = Ok result ->
                    reaches line0 [] result) /\
    (forall err, tokenizeLine_loop line tokens = Err err ->
                 exists leader after tokens',
                   reaches line0 (leader :: after) tokens' /\
                   next_token leader after = Err err).
Proof.
  induction line as [|leader after IH] using line_ind; intros tokens Hreach.
  - rewrite tokenizeLine_loop_equation_1. split.
    + intros result H. injection H as <-. exact Hreach.
    + discriminate.
  - rewrite tokenizeLine_loop_cons.
    destruct (next_token leader after) as [[token line']|err0|] eqn:Hnext.
    + apply (IH _ _ eq_refl). apply (reaches_next _ _ _ _ _ _ Hreach Hnext).
    + split; [discriminate|]. intros err H. injection H as <-.
      exists leader, after, tokens. split; assumption.
    + split; discriminate.
Qed.

Lemma tokenizeLine_reaches (line : bytes) (tokens : list bytes) :
  tokenizeLine line = Ok tokens -> reaches line [] tokens.
Proof. apply (loop_run line line [] (reaches_start line)). Qed.

Lemma tokenizeLine_fails_at (line : bytes) (err : error) :
  tokenizeLine line = Err err ->
  exists leader after tokens,
    reaches line (leader :: after) tokens /\ next_token leader after = Err err.
Proof. apply (loop_run line line [] (reaches_start line)). Qed.

(** ** Escaping as the specification words it

    In the specification a backslash that is not itself escaped sets the
    escape flag for exactly one following character.  [spec_flag_at esc0
    buf k] is that flag on entry of index [k]: the byte before is a
    backslash that was not itself escaped.  After a doubled backslash it
    is false where [flag_at], the flag of the code, is true. *)

Fixpoint spec_flag_at (esc0 : bool) (buf : bytes) (k : nat) : bool :=
  match k with
  | 0 => esc0
  | S j =>
      match nth_error buf j with
      | Some c => Ascii.eqb c BACKSLASH && negb (spec_flag_at esc0 buf j)
      | None => false
      end
  end.

Definition spec_escaped_at (buf : bytes) (k : nat) : bool :=
  spec_flag_at false buf k.

(** [c] is a quote character at index [k] of [buf] that the specification
    counts as unescaped. *)
Definition spec_unescaped_quote_at (buf : bytes) (k : nat) (c : ascii) : Prop :=
  nth_error buf k = Some c /\ is_quote c = true /\ spec_escaped_at buf k = false.

(** No quote character of [body] is unescaped for the specification,
    checked index by index. *)
Definition spec_quotes_escaped (body : bytes) : bool :=
  forallb
    (fun k =>
       match nth_error body k with
       | Some c => negb (is_quote c) || spec_escaped_at body k
       | None => true
       end)
    (seq 0 (length body)).

(** What the specification escapes, the code escapes. *)
Lemma spec_flag_code_flag (esc0 : bool) (buf : bytes) (k : nat) :
  spec_flag_at esc0 buf k = true -> flag_at esc0 buf k = true.
Proof.
  destruct k as [|j]; simpl; [auto|].
  destruct (nth_error buf j); [|discriminate].
  intros H. apply andb_true_iff in H. exact (proj1 H).
Qed.

Lemma spec_quotes_escaped_sound (body : bytes) :
  spec_quotes_escaped body = true ->
  forall k c, ~ spec_unescaped_quote_at body k c.
Proof.
  unfold spec_quotes_escaped. intros Hall k c (Hn & Hq & He).
  rewrite forallb_forall in Hall.
  assert (Hk : In k (seq 0 (length body))).
  { apply in_seq. split; [lia|]. apply nth_error_Some. congruence. }
  specialize (Hall k Hk). rewrite Hn, Hq, He in Hall. discriminate.
Qed.

Lemma spec_escaped_none (body : bytes) :
  (forall k c, ~ spec_unescaped_quote_at body k c) ->
  no_unescaped_quote false body.
Proof.
  intros H k c (Hn & Hq & Hf). apply (H k c).
  split; [exact Hn|]. split; [exact Hq|].
  unfold spec_escaped_at. destruct (spec_flag_at false body k) eqn:He; [|reflexivity].
  apply spec_flag_code_flag in He. congruence.
Qed.

(** ** The claims on the tokenizer *)

(** The first quote character of the body of a quoted token that the scan
    of the code meets with its flag down is not the quote that opened
    it. *)
Definition mismatched_quote (q : ascii) (body : bytes) : Prop :=
  exists k c, first_unescaped_quote false body k c /\ c <> q.

(** When the code fails, in terms of its own flag: exactly when the loop
    comes to a token opened by a quote character and the scan meets the
    other quote character, its flag down, before it meets the opening one
    with its flag down. *)
Lemma tokenizeLine_fails_flag (line : bytes) (err : error) :
  tokenizeLine line = Err err <->
  err = bad_char /\
  exists q body tokens,
    reaches line (q :: body) tokens /\ is_quote q = true /\
    mismatched_quote q body.
Proof.
  split.
  - intros H. apply tokenizeLine_fails_at in H.
    destruct H as (leader & after & tokens & Hreach & Hnext).
    destruct (is_quote leader) eqn:Hq.
    + rewrite (next_token_quote _ _ Hq) in Hnext.
      destruct (unescaped_quote_cases after false) as [(k & c & Hfirst)|Hnone].
      * rewrite (consumeString_first _ _ _ _ Hq Hfirst) in Hnext.
        destruct (Ascii.eqb_spec c leader) as [Heq|Hne]; [discriminate|].
        injection Hnext as <-. split; [reflexivity|].
        exists leader, after, tokens.
        split; [exact Hreach|]. split; [exact Hq|].
        exists k, c. split; assumption.
      * rewrite (consumeString_none _ _ Hq Hnone) in Hnext. discriminate.
    + rewrite (next_token_atom _ _ Hq) in Hnext.
      destruct (consumeAtom_split (leader :: after)) as (tok & rest & _ & _ & _ & Hrun).
      rewrite Hrun in Hnext. discriminate.
  - intros (-> & q & body & tokens & Hreach & Hq & k & c & Hfirst & Hne).
    rewrite <- (reaches_result _ _ _ Hreach), tokenizeLine_loop_cons.
    rewrite (next_token_quote _ _ Hq), (consumeString_first _ _ _ _ Hq Hfirst).
    destruct (Ascii.eqb_spec c q) as [Heq|_]; [contradiction | reflexivity].
Qed.

(** A single quote inside double quotes and a double quote inside single
    quotes, without any backslash: both lines fail. *)
Example mismatched_quotes_fail :
  tokenizeLine (DQUOTE :: lit "a'b" ++ [DQUOTE]) = Err bad_char /\
  tokenizeLine (SQUOTE :: lit "a" ++ DQUOTE :: lit "b'") = Err bad_char.
Proof. split; reflexivity. Qed.

(** C2, what the code does after a doubled backslash.  In the body [a],
    backslash, backslash, single quote, [b], double quote, opened by a
    double quote, the single quote at index 3 is unescaped for the
    specification (the backslash before it is itself escaped) and no
    unescaped quote comes before it, so the claim has the line fail; the
    code takes the single quote as escaped and returns the token [a],
    single quote, [b].  In the body [a], backslash, backslash, double
    quote, space, [b], single quote, [c], the double quote at index 3 is
    unescaped for the specification and closes the token, after which
    comes an atom, so the claim has the line tokenized; the code takes that
    double quote as escaped, goes on to the single quote and fails. *)
Theorem mismatched_quote_doubled_backslash :
  (spec_unescaped_quote_at
     (lit "a" ++ [BACKSLASH; BACKSLASH; SQUOTE] ++ lit "b" ++ [DQUOTE]) 3 SQUOTE /\
   (forall j c, j < 3 ->
      ~ spec_unescaped_quote_at
          (lit "a" ++ [BACKSLASH; BACKSLASH; SQUOTE] ++ lit "b" ++ [DQUOTE]) j c) /\
   tokenizeLine
     (DQUOTE :: lit "a" ++ [BACKSLASH; BACKSLASH; SQUOTE] ++ lit "b" ++ [DQUOTE]) =
   Ok [lit "a'b"]) /\
  (spec_unescaped_quote_at
     (lit "a" ++ [BACKSLASH; BACKSLASH; DQUOTE] ++ lit " b'c") 3 DQUOTE /\
   (forall j c, j < 3 ->
      ~ spec_unescaped_quote_at
          (lit "a" ++ [BACKSLASH; BACKSLASH; DQUOTE] ++ lit " b'c") j c) /\
   tokenizeLine (lit "b'c") = Ok [lit "b'c"] /\
   tokenizeLine
     (DQUOTE :: lit "a" ++ [BACKSLASH; BACKSLASH; DQUOTE] ++ lit " b'c") =
   Err bad_char).
Proof.
  assert (Hbefore : forall tl j c, j < 3 ->
            ~ spec_unescaped_quote_at (lit "a" ++ [BACKSLASH; BACKSLASH] ++ tl) j c).
  { intros tl j c Hj (Hn & Hq & _).
    destruct j as [|[|[|j]]]; [| | |lia];
      simpl in Hn; injection Hn as <-; discriminate. }
  split.
  - split; [repeat split|]. split; [|reflexivity].
    intros j c. apply (Hbefore (SQUOTE :: lit "b" ++ [DQUOTE])).
  - split; [repeat split|]. split; [|split; reflexivity].
    intros j c. apply (Hbefore (DQUOTE :: lit " b'c")).
Qed.

(** C3, amended. When the loop comes to a quoted token whose closing quote
    is missing and whose body has no unescaped occurrence of the other
    quote character either, the scan runs to the end of the buffer: the
    token is the rest of the buffer as it is, there is no error and nothing
    is left to read, so the tokenizer returns the tokens built so far and
    this one.  Unescaped is meant as the specification words it. *)
Theorem unterminated_quote (line : bytes) (q : ascii) (body : bytes)
  (tokens : list bytes) :
  reaches line (q :: body) tokens ->
  is_quote q = true ->
  (forall k, ~ spec_unescaped_quote_at body k q) ->
  (forall k c, c <> q -> ~ spec_unescaped_quote_at body k c) ->
  consumeString [q] body = Ok (body, []) /\
  tokenizeLine line = Ok (tokens ++ [body]).
Proof.
  intros Hreach Hq Hclosing Hother.
  assert (Hnone : no_unescaped_quote false body).
  { apply spec_escaped_none. intros k c.
    destruct (Ascii.eqb_spec c q) as [Heq|Hne]; [subst c|]; auto. }
  split; [apply (consumeString_none _ _ Hq Hnone)|].
  rewrite <- (reaches_result _ _ _ Hreach), tokenizeLine_loop_cons.
  rewrite (next_token_quote _ _ Hq), (consumeString_none _ _ Hq Hnone).
  apply tokenizeLine_loop_equation_1.
Qed.

Lemma unterminated_quote_witness :
  consumeString [DQUOTE] (lit "say " ++ BACKSLASH :: DQUOTE :: lit "hi") =
    Ok (lit "say " ++ BACKSLASH :: DQUOTE :: lit "hi", []) /\
  tokenizeLine (DQUOTE :: lit "say " ++ BACKSLASH :: DQUOTE :: lit "hi") =
    Ok ([] ++ [lit "say " ++ BACKSLASH :: DQUOTE :: lit "hi"]).
Proof.
  apply (unterminated_quote
           (DQUOTE :: lit "say " ++ BACKSLASH :: DQUOTE :: lit "hi") DQUOTE
           (lit "say " ++ BACKSLASH :: DQUOTE :: lit "hi") []).
  - apply reaches_start.
  - reflexivity.
  - intros k. apply spec_quotes_escaped_sound. reflexivity.
  - intros k c _. apply spec_quotes_escaped_sound. reflexivity.
Defined.

(** C3 as stated fails: the token opened by a double quote in the line
    made of a double quote, [a], a single quote and [b] has no closing
    quote, its body holds no double quote at all, and tokenizing the line
    fails. *)
Lemma unterminated_quote_counterexample :
  reaches (DQUOTE :: lit "a'b") (DQUOTE :: lit "a'b") [] /\
  is_quote DQUOTE = true /\
  ~ In DQUOTE (lit "a'b") /\
  (forall k, ~ spec_unescaped_quote_at (lit "a'b") k DQUOTE) /\
  consumeString [DQUOTE] (lit "a'b") = Err bad_char /\
  tokenizeLine (DQUOTE :: lit "a'b") = Err bad_char.
Proof.
  assert (Hno : ~ In DQUOTE (lit "a'b")).
  { intros H. simpl in H. repeat (destruct H as [H|H]; [discriminate|]). exact H. }
  split; [apply reaches_start|]. split; [reflexivity|]. split; [exact Hno|].
  split; [|split; reflexivity].
  intros k (Hn & _). apply Hno. apply (nth_error_In _ _ Hn).
Qed.

(** The body of a quoted token and the token made of it, as the
    specification has it: every byte that is not a backslash is kept, in
    order, and every backslash that is not escaped is dropped.  Of a
    backslash that is escaped nothing is said: it may be kept or dropped.
    The first argument is the escape flag of the specification on entry. *)
Inductive unescapes : bool -> bytes -> bytes -> Prop :=
| unescapes_nil (esc : bool) : unescapes esc [] []
| unescapes_keep (esc : bool) (c : ascii) (body token : bytes) :
    c <> BACKSLASH ->
    unescapes false body token ->
    unescapes esc (c :: body) (c :: token)
| unescapes_drop (body token : bytes) :
    unescapes true body token ->
    unescapes false (BACKSLASH :: body) token
| unescapes_escaped_kept (body token : bytes) :
    unescapes false body token ->
    unescapes true (BACKSLASH :: body) (BACKSLASH :: token)
| unescapes_escaped_dropped (body token : bytes) :
    unescapes false body token ->
    unescapes true (BACKSLASH :: body) token.

(** How a token is made from the line at the head of the loop.  An
    atom: the line does not begin with a quote character and the token is
    the line up to its first space, as it is.  A closed quoted token: the
    line begins with the quote [q], the token is made of a body that lies
    between that quote and a later occurrence of [q].  A quoted token
    that is never closed: the token is all that follows the opening
    quote, as it is. *)
Definition atom_token (buf token : bytes) : Prop :=
  exists leader after rest,
    buf = leader :: after /\ is_quote leader = false /\
    buf = token ++ rest /\ ~ In SP token /\
    (rest = [] \/ exists rest', rest = SP :: rest').

Definition closed_token (q : ascii) (after token : bytes) : Prop :=
  is_quote q = true /\
  exists body rest, after = body ++ q :: rest /\ unescapes false body token.

Definition unclosed_token (q : ascii) (after token : bytes) : Prop :=
  is_quote q = true /\ token = after.

Lemma Replace_backslash_unescapes (body : bytes) :
  forall esc, unescapes esc body (strings.Replace_backslash body).
Proof.
  induction body as [|c body IH]; intros esc; [constructor|].
  unfold strings.Replace_backslash. cbn [filter].
  destruct (Ascii.eqb_spec c BACKSLASH) as [->|Hne]; cbn [negb].
  - destruct esc.
    + apply unescapes_escaped_dropped, IH.
    + apply unescapes_drop, IH.
  - apply unescapes_keep; [exact Hne | apply IH].
Qed.

Lemma split_at_index (l : bytes) (k : nat) (c : ascii) :
  nth_error l k = Some c -> l = firstn k l ++ c :: skipn (S k) l.
Proof.
  revert k. induction l as [|x l IH]; intros [|k] H; try discriminate.
  - injection H as ->. reflexivity.
  - cbn [firstn skipn app]. f_equal. apply IH. exact H.
Qed.

Lemma produced_kind (line token : bytes) :
  produced line token ->
  exists leader after built,
    reaches line (leader :: after) built /\
    (atom_token (leader :: after) token \/
     closed_token leader after token \/
     unclosed_token leader after token).
Proof.
  intros (leader & after & built & line' & Hreach & Hnext).
  exists leader, after, built. split; [exact Hreach|].
  destruct (is_quote leader) eqn:Hq.
  - rewrite (next_token_quote _ _ Hq) in Hnext. right.
    destruct (unescaped_quote_cases after false) as [(k & c & Hfirst)|Hnone].
    + rewrite (consumeString_first _ _ _ _ Hq Hfirst) in Hnext.
      destruct (Ascii.eqb_spec c leader) as [Heq|Hne]; [subst c|discriminate].
      remember (skipn (S k) after) as rest eqn:Hrest.
      injection Hnext as <- _. left. split; [exact Hq|].
      exists (firstn k after), rest. split.
      * rewrite Hrest. apply split_at_index. apply Hfirst.
      * apply Replace_backslash_unescapes.
    + rewrite (consumeString_none _ _ Hq Hnone) in Hnext. injection Hnext as <- _.
      right. split; [exact Hq | reflexivity].
  - rewrite (next_token_atom _ _ Hq) in Hnext. left.
    destruct (consumeAtom_split (leader :: after))
      as (tok & rest & Hbuf & Hnot & Hrest & Hrun).
    rewrite Hrun in Hnext. injection Hnext as <- _.
    exists leader, after, rest.
    split; [reflexivity|]. split; [exact Hq|]. split; [exact Hbuf|].
    split; [exact Hnot | exact Hrest].
Qed.

(** C4, amended. Every token of a successful tokenization is made by an
    iteration of the loop on the line left at its head, in one of three
    ways.  A token made from a quoted token that the scan closes is the
    body between the opening quote and the quote that closes it, with
    every byte other than a backslash kept and every unescaped backslash
    dropped: it retains no unescaped backslash and neither surrounding
    quote.  A token made from a quoted token that is never closed is all
    that follows the opening quote, as it is: it does not retain the
    opening quote, and it retains its backslashes.  A token made from an
    atom is the line up to its first space, as it is, and retains its
    backslashes. *)
Theorem token_kinds (line : bytes) (tokens : list bytes) (token : bytes) :
  tokenizeLine line = Ok tokens ->
  In token tokens ->
  exists leader after built,
    reaches line (leader :: after) built /\
    (atom_token (leader :: after) token \/
     closed_token leader after token \/
     unclosed_token leader after token).
Proof.
  intros Hrun Hin.
  apply tokenizeLine_reaches, reaches_produced in Hrun.
  rewrite Forall_forall in Hrun.
  apply produced_kind, Hrun, Hin.
Qed.

Lemma token_kinds_witness :
  exists leader after built,
    reaches (lit "DEFINE wn " ++ DQUOTE :: lit "hello world" ++ [DQUOTE])
      (leader :: after) built /\
    (atom_token (leader :: after) (lit "hello world") \/
     closed_token leader after (lit "hello world") \/
     unclosed_token leader after (lit "hello world")).
Proof.
  apply (token_kinds (lit "DEFINE wn " ++ DQUOTE :: lit "hello world" ++ [DQUOTE])
           [lit "DEFINE"; lit "wn"; lit "hello world"]).
  - reflexivity.
  - simpl. auto.
Defined.

(** C4 as stated fails, on an atom and on a quoted token that is never
    closed: the atom made of [a], a backslash and [b], and the same
    after an opening double quote, are both emitted with the backslash,
    which is unescaped. *)
Lemma token_kinds_counterexample :
  (tokenizeLine (lit "a" ++ BACKSLASH :: lit "b") =
     Ok [lit "a" ++ BACKSLASH :: lit "b"] /\
   tokenizeLine (DQUOTE :: lit "a" ++ BACKSLASH :: lit "b") =
     Ok [lit "a" ++ BACKSLASH :: lit "b"]) /\
  nth_error (lit "a" ++ BACKSLASH :: lit "b") 1 = Some BACKSLASH /\
  spec_escaped_at (lit "a" ++ BACKSLASH :: lit "b") 1 = false.
Proof. repeat split. Qed.

(** C1, what the code does on an escaped backslash.  In a body made of
    [a], two backslashes and a double quote, opened by a double quote, the
    second backslash sets the escape flag again, so the quote after it does
    not close the token and the scan runs to the end of the buffer: the
    token is the whole body, backslashes included.  With [b] and another
    double quote after it, that last quote closes the token, which is [a],
    a double quote and [b]: both backslashes are dropped and the quote they
    stood before is kept. *)
Theorem escaped_backslash :
  tokenizeLine (DQUOTE :: lit "a" ++ [BACKSLASH; BACKSLASH; DQUOTE]) =
    Ok [lit "a" ++ [BACKSLASH; BACKSLASH; DQUOTE]] /\
  tokenizeLine (DQUOTE :: lit "a" ++ [BACKSLASH; BACKSLASH; DQUOTE] ++ lit "b" ++ [DQUOTE]) =
    Ok [lit "a" ++ DQUOTE :: lit "b"] /\
  consumeString [DQUOTE] (lit "a" ++ [BACKSLASH; BACKSLASH; DQUOTE] ++ lit " b") =
    Ok (lit "a" ++ [BACKSLASH; BACKSLASH; DQUOTE] ++ lit " b", []).
Proof. repeat split. Qed.

(** C9. The three lines of the specification: three atoms; two atoms and a
    quoted token with a space; an atom with an apostrophe inside. *)
Theorem tokenizeLine_examples :
  tokenizeLine (lit "DEFINE wn hello") = Ok [lit "DEFINE"; lit "wn"; lit "hello"] /\
  tokenizeLine (lit "DEFINE wn " ++ DQUOTE :: lit "hello world" ++ [DQUOTE]) =
    Ok [lit "DEFINE"; lit "wn"; lit "hello world"] /\
  tokenizeLine (lit "it's") = Ok [lit "it's"].
Proof. repeat split. Qed.

(** An escaped quote does not close its token and loses its backslash; two
    quotes in a row are a token, the empty one. *)
Example escaped_quote_kept :
  tokenizeLine (DQUOTE :: lit "say " ++ BACKSLASH :: DQUOTE :: lit "hi" ++
                  BACKSLASH :: DQUOTE :: DQUOTE :: lit " now") =
    Ok [lit "say " ++ DQUOTE :: lit "hi" ++ [DQUOTE]; lit "now"] /\
  tokenizeLine [DQUOTE; DQUOTE] = Ok [[]].
Proof. split; reflexivity. Qed.

(** ** The claims on the parser *)

Lemma tokenizeLine_empty_iff (line : bytes) :
  tokenizeLine line = Ok [] <-> line = [].
Proof.
  split; [|intros ->; apply tokenizeLine_nil].
  destruct line as [|leader after]; [reflexivity|].
  rewrite tokenizeLine_cons.
  destruct (next_token leader after) as [[token line']|err|]; try discriminate.
  destruct (tokenizeLine line'); discriminate.
Qed.

Lemma parseLine_panic_iff (line : bytes) :
  parseLine line = Panic <-> tokenizeLine line = Ok [].
Proof.
  unfold parseLine.
  destruct (tokenizeLine line) as [[|first others]|err|] eqn:Hrun;
    split; try discriminate; try reflexivity.
  intros _. exfalso. apply (tokenizeLine_no_panic _ Hrun).
Qed.

Lemma parseLine_panic_nil (line : bytes) :
  parseLine line = Panic <-> line = [].
Proof. rewrite parseLine_panic_iff. apply tokenizeLine_empty_iff. Qed.

(** C10. A successful tokenization of a non-empty line returns at least
    one token; [parseLine] panics on [tokens[0]] exactly when the
    tokenization returns no token, which is exactly on the empty line; so
    it never panics on a line that [Handle] has trimmed and found
    non-empty. *)
Theorem first_token_in_bounds (line : bytes) :
  (forall tokens, tokenizeLine line = Ok tokens -> (tokens = [] <-> line = [])) /\
  (parseLine line = Panic <-> tokenizeLine line = Ok []) /\
  (parseLine line = Panic <-> line = []) /\
  (forall raw, line = strings.Trim raw [SP; LF; CR; TAB] -> line <> [] ->
               parseLine line <> Panic).
Proof.
  pose proof (parseLine_panic_nil line) as Hpanic.
  split; [|split; [apply parseLine_panic_iff | split; [exact Hpanic|]]].
  - intros tokens Hrun. rewrite <- tokenizeLine_empty_iff, Hrun.
    split; [intros ->; reflexivity | intros H; injection H as ->; reflexivity].
  - intros raw _ Hne H. apply Hne, Hpanic, H.
Qed.

(** C5. When the tokenization of a line returns a first token and others,
    [parseLine] returns the command whose verb is the first token in upper
    case and whose parameters are the other tokens, in order and as they
    are; [parseLine] returns an error exactly when the tokenization does,
    and then the same error; the line [show server] gives the verb [SHOW]
    and the parameter [server]. *)
Theorem parseLine_spec (line : bytes) :
  (forall first others,
      tokenizeLine line = Ok (first :: others) ->
      parseLine line = Ok (mkCommand (strings.ToUpper first) others)) /\
  (forall err, parseLine line = Err err <-> tokenizeLine line = Err err) /\
  parseLine (lit "show server") = Ok (mkCommand (lit "SHOW") [lit "server"]).
Proof.
  split; [|split; [|reflexivity]].
  - intros first others Hrun. unfold parseLine. rewrite Hrun. reflexivity.
  - intros err. unfold parseLine.
    destruct (tokenizeLine line) as [[|first others]|err0|];
      split; intros H; try discriminate; injection H as ->; reflexivity.
Qed.

(** * The session: response writer, dispatch and read loop *)

(** ** net/textproto, as far as socket.go uses it

    The connection is modelled by what has been written to its [Writer];
    writes to the buffer do not fail. *)

Module textproto.

(** [Writer.PrintfLine] of a format without verbs: the text, then CR LF. *)
Definition PrintfLine (w text : bytes) : bytes := w ++ text ++ [CR; LF].

Inductive wstate : Type :=
| wstateBegin
| wstateBeginLine
| wstateCR
| wstateData.

(** The [wstateData] case of [dotWriter.Write], entered with the state
    [wstateData] (the first case sets it before it falls through): the new
    state and the bytes written before [c] itself. *)
Definition data_case (c : ascii) : wstate * bytes :=
  let st := if Ascii.eqb c CR then wstateCR else wstateData in
  if Ascii.eqb c LF then (wstateBeginLine, [CR]) else (st, []).

(** One byte of the loop of [dotWriter.Write]. *)
Definition write_byte (st : wstate) (c : ascii) : wstate * bytes :=
  match st with
  | wstateBegin | wstateBeginLine =>
      let (st', pre) := data_case c in
      (st', (if Ascii.eqb c DOT then [DOT] else []) ++ pre ++ [c])
  | wstateData =>
      let (st', pre) := data_case c in (st', pre ++ [c])
  | wstateCR =>
      (if Ascii.eqb c LF then wstateBeginLine else wstateData, [c])
  end.

Fixpoint Write (st : wstate) (w b : bytes) : wstate * bytes :=
  match b with
  | [] => (st, w)
  | c :: b' => let (st', out) := write_byte st c in Write st' (w ++ out) b'
  end.

(** [dotWriter.Close]: the cases fall through to the dot line. *)
Definition Close (st : wstate) (w : bytes) : bytes :=
  match st with
  | wstateBeginLine => w ++ [DOT; CR; LF]
  | wstateCR => w ++ [LF] ++ [DOT; CR; LF]
  | wstateBegin | wstateData => w ++ [CR] ++ [LF] ++ [DOT; CR; LF]
  end.

End textproto.

(** ** Sessions *)

(** A Go [map[string]bool]: the last binding of a key wins and a missing
    key reads as [false]. *)
Definition options := list (bytes * bool).

Definition bytes_eqb (a b : bytes) : bool :=
  if list_eq_dec ascii_dec a b then true else false.

Fixpoint map_index (m : options) (key : bytes) : bool :=
  match m with
  | [] => false
  | (k, v) :: m' => if bytes_eqb k key then v else map_index m' key
  end.

Definition map_assign (m : options) (key : bytes) (v : bool) : options :=
  (key, v) :: m.

Section Dictd.

(** The parts of the package that socket.go calls and that are declared in
    other files: the [Server] with its name and its registry of handlers,
    the handshake and the handler of unknown commands.  A handler is called
    with the pointer to the session and a [Command] value; its effects are
    those of the handler interface, writing to the connection and changing
    the session: it returns the session as it leaves it, and its own copy
    of the command as it leaves it. *)
Variable Server : Type.
Variable Name : Server -> bytes.

Record Session : Type := mkSession {
  MsgId : bytes;
  Client : bytes;
  Connection : bytes;
  DictServer : Server;
  Options : options
}.

Definition handler : Type := Session -> Command -> Session * Command.

Variable handler_name : Type.
Variable GetHandler : Server -> Command -> option handler_name.
Variable registered : handler_name -> handler.
Variable unknownCommandHandler : handler.
Variable handshakeHandler : Session -> Session.

(** What a run leaves behind, next to the session: the calls of handlers
    and the log lines, in order. *)
Inductive call : Type :=
| CallRegistered (h : handler_name) (arg : Command)
| CallUnknown (arg : Command).

Inductive log_line : Type :=
| LogIncoming (msgid verb : bytes)
| LogError (err : error).

Record world : Type := mkWorld {
  session : Session;
  calls : list call;
  logged : list log_line
}.

(** [handleCommand(session, command)]: both arguments are pointers, so the
    result is the world after the call together with the [Command] that
    [command] points to after the call.  The handler is called with
    [*command], a value of its own, which is dropped when it returns.
    Commands are values here, as the read loop needs them; the array that
    the slice [Params] of the copy shares with the caller's command is
    modelled in [Shared.handleCommand] below. *)
Definition handleCommand (w : world) (command : Command) : world * Command :=
  let logged' := logged w ++ [LogIncoming (MsgId (session w)) (Command_ command)] in
  match GetHandler (DictServer (session w)) command with
  | None =>
      let (session', _) := unknownCommandHandler (session w) command in
      (mkWorld session' (calls w ++ [CallUnknown command]) logged', command)
  | Some h =>
      let (session', _) := registered h (session w) command in
      (mkWorld session' (calls w ++ [CallRegistered h command]) logged', command)
  end.

Definition mime_header : bytes :=
  lit "Content-type: text/plain; charset=utf-8" ++ [LF] ++
  lit "Content-transfer-encoding: 8bit" ++ [LF].

Definition WriteTextBlock (s : Session) (stream : bytes) : Session :=
  let conn :=
    if map_index (Options s) (lit "MIME")
    then textproto.PrintfLine (Connection s) mime_header
    else Connection s in
  let (st, conn) := textproto.Write textproto.wstateBegin conn stream in
  mkSession (MsgId s) (Client s) (textproto.Close st conn) (DictServer s) (Options s).

(** [now] is the decimal text of [time.Now().UnixNano()]. *)
Definition generateMsgId (now : bytes) (server : Server) : bytes :=
  now ++ lit ".0@" ++ Name server.

(** What [proto.ReadLine] returns. *)
Inductive read : Type :=
| Line (line : bytes)
| ReadError (err : error).

Inductive loop_end : Type :=
| Returned
| Waiting
| Panicked.

(** The [for] loop of [Handle] over the reads the transport delivers:
    [Waiting] when they are used up and the loop sits in [ReadLine]. *)
Fixpoint Handle_loop (reads : list read) (w : world) : loop_end * world :=
  match reads with
  | [] => (Waiting, w)
  | ReadError err :: _ =>
      (Returned, mkWorld (session w) (calls w) (logged w ++ [LogError err]))
  | Line line :: reads' =>
      let line := strings.Trim line [SP; LF; CR; TAB] in
      match line with
      | [] => Handle_loop reads' w
      | _ :: _ =>
          match parseLine line with
          | Err err =>
              Handle_loop reads'
                (mkWorld (session w) (calls w) (logged w ++ [LogError err]))
          | Ok command => Handle_loop reads' (fst (handleCommand w command))
          | Panic => (Panicked, w)
          end
      end
  end.

Definition Handle (now : bytes) (server : Server) (reads : list read)
  : loop_end * world :=
  let session :=
    mkSession (generateMsgId now server) [] [] server
      (map_assign [] (lit "MIME") false) in
  let session := handshakeHandler session in
  Handle_loop reads (mkWorld session [] []).


(** ** The claims on the session *)

(** The dot-stuffed block that a [DotWriter], written [stream] and closed,
    adds to the connection. *)
Definition dot_block (stream : bytes) : bytes :=
  let (st, out) := textproto.Write textproto.wstateBegin [] stream in
  textproto.Close st out.

Lemma Write_app (b : bytes) :
  forall st w,
    textproto.Write st w b =
    (fst (textproto.Write st [] b), w ++ snd (textproto.Write st [] b)).
Proof.
  induction b as [|c b IH]; intros st w; simpl.
  - rewrite app_nil_r. reflexivity.
  - destruct (textproto.write_byte st c) as [st' out].
    rewrite (IH st' (w ++ out)), (IH st' out). cbn [fst snd].
    rewrite <- app_assoc. reflexivity.
Qed.

Lemma Close_app (st : textproto.wstate) (w : bytes) :
  textproto.Close st w = w ++ textproto.Close st [].
Proof. destruct st; reflexivity. Qed.

Lemma write_byte_line_end (st st' : textproto.wstate) (c : ascii) (out : bytes) :
  textproto.write_byte st c = (st', out) ->
  st' = textproto.wstateBeginLine ->
  exists p, out = p ++ [LF].
Proof.
  unfold textproto.write_byte, textproto.data_case.
  destruct (Ascii.eqb_spec c LF) as [->|Hne].
  - destruct st; simpl; intros H _; injection H as <- <-.
    + exists [CR]. reflexivity.
    + exists [CR]. reflexivity.
    + exists []. reflexivity.
    + exists [CR]. reflexivity.
  - destruct st; simpl; destruct (Ascii.eqb c CR); intros H Hst;
      injection H as <- <-; discriminate.
Qed.

Lemma Write_line_end (b : bytes) :
  forall st w st' w',
    textproto.Write st w b = (st', w') ->
    (st = textproto.wstateBeginLine -> exists p, w = p ++ [LF]) ->
    st' = textproto.wstateBeginLine ->
    exists p, w' = p ++ [LF].
Proof.
  induction b as [|c b IH]; intros st w st' w'; simpl.
  - intros H Hinv Hst. injection H as <- <-. auto.
  - destruct (textproto.write_byte st c) as [st1 out] eqn:Hbyte.
    intros H _. apply (IH _ _ _ _ H). intros Hst1.
    destruct (write_byte_line_end _ _ _ _ Hbyte Hst1) as [p ->].
    exists (w ++ p). rewrite app_assoc. reflexivity.
Qed.

(** The block ends with a line that holds a dot and nothing else. *)
Lemma dot_block_end (stream : bytes) :
  exists body, dot_block stream = body ++ [LF; DOT; CR; LF].
Proof.
  unfold dot_block.
  destruct (textproto.Write textproto.wstateBegin [] stream) as [st out] eqn:Hrun.
  destruct st.
  - exists (out ++ [CR]). simpl. rewrite <- app_assoc. reflexivity.
  - destruct (Write_line_end _ _ _ _ _ Hrun) as [p ->]; [discriminate|reflexivity|].
    exists p. simpl. rewrite <- app_assoc. reflexivity.
  - exists out. reflexivity.
  - exists (out ++ [CR]). simpl. rewrite <- app_assoc. reflexivity.
Qed.

Example dot_block_stuffed :
  dot_block (lit ".a" ++ LF :: lit "b") =
  lit "..a" ++ [CR; LF] ++ lit "b" ++ [CR; LF] ++ [DOT; CR; LF].
Proof. reflexivity. Qed.

(** Dot-stuffing as the specification words it: the payload written as
    it is, except that a dot that begins a line is doubled.  [bol] says
    that the next byte begins a line. *)
Fixpoint stuffed (bol : bool) (payload : bytes) : bytes :=
  match payload with
  | [] => []
  | c :: payload' =>
      (if bol && Ascii.eqb c DOT then [DOT] else []) ++
      c :: stuffed (Ascii.eqb c LF) payload'
  end.

(** The payload is not empty and its last byte is a line feed. *)
Definition ends_line (payload : bytes) : bool :=
  Ascii.eqb (last payload SP) LF.

(** The payload of a block as the specification has it, with bare line
    feeds for line ends: the stuffed payload, a line end if it has none,
    and the line that holds a dot. *)
Definition stuffed_block (payload : bytes) : bytes :=
  stuffed true payload ++ (if ends_line payload then [] else [LF]) ++ [DOT; LF].

Definition erase_cr (s : bytes) : bytes :=
  filter (fun c => negb (Ascii.eqb c CR)) s.

(** Every line feed turned into CR LF. *)
Definition with_crlf (s : bytes) : bytes :=
  flat_map (fun c => if Ascii.eqb c LF then [CR; LF] else [c]) s.

Definition is_bol (st : textproto.wstate) : bool :=
  match st with
  | textproto.wstateBegin | textproto.wstateBeginLine => true
  | _ => false
  end.

Definition is_BeginLine (st : textproto.wstate) : bool :=
  match st with
  | textproto.wstateBeginLine => true
  | _ => false
  end.

Lemma write_byte_stuffed (st : textproto.wstate) (c : ascii) :
  erase_cr (snd (textproto.write_byte st c)) =
    erase_cr ((if is_bol st && Ascii.eqb c DOT then [DOT] else []) ++ [c]) /\
  is_bol (fst (textproto.write_byte st c)) = Ascii.eqb c LF /\
  is_BeginLine (fst (textproto.write_byte st c)) = Ascii.eqb c LF.
Proof.
  destruct st; destruct c as [[] [] [] [] [] [] [] []];
    (split; [reflexivity | split; reflexivity]).
Qed.

Lemma erase_cr_app (a b : bytes) : erase_cr (a ++ b) = erase_cr a ++ erase_cr b.
Proof. apply filter_app. Qed.

Lemma Write_stuffed (b : bytes) :
  forall st,
    erase_cr (snd (textproto.Write st [] b)) = erase_cr (stuffed (is_bol st) b) /\
    is_BeginLine (fst (textproto.Write st [] b)) =
      match b with
      | [] => is_BeginLine st
      | _ :: _ => ends_line b
      end.
Proof.
  induction b as [|c b IH]; intros st; [split; reflexivity|].
  cbn [textproto.Write stuffed].
  destruct (textproto.write_byte st c) as [st' out] eqn:Hbyte.
  destruct (write_byte_stuffed st c) as (Hout & Hbol & Hline).
  rewrite Hbyte in Hout, Hbol, Hline. cbn [fst snd] in Hout, Hbol, Hline.
  rewrite (Write_app b st' ([] ++ out)). cbn [fst snd app].
  destruct (IH st') as [IHout IHline]. split.
  - rewrite erase_cr_app, IHout, Hout, Hbol, <- erase_cr_app, <- app_assoc.
    reflexivity.
  - rewrite IHline. destruct b as [|c' b]; [exact Hline | reflexivity].
Qed.

Lemma Close_stuffed (st : textproto.wstate) (out : bytes) :
  erase_cr (textproto.Close st out) =
  erase_cr out ++ (if is_BeginLine st then [] else [LF]) ++ [DOT; LF].
Proof. destruct st; cbn [textproto.Close]; rewrite erase_cr_app; reflexivity. Qed.

(** With carriage returns left aside, the block is the stuffed payload of
    the specification. *)
Lemma dot_block_stuffed_payload (stream : bytes) :
  erase_cr (dot_block stream) = erase_cr (stuffed_block stream).
Proof.
  unfold dot_block, stuffed_block.
  destruct (Write_stuffed stream textproto.wstateBegin) as [Hout Hline].
  destruct (textproto.Write textproto.wstateBegin [] stream) as [st out].
  cbn [fst snd is_bol] in Hout, Hline.
  rewrite Close_stuffed, Hout, Hline, erase_cr_app.
  destruct stream as [|c stream]; [reflexivity|].
  destruct (ends_line (c :: stream)); reflexivity.
Qed.

Lemma write_byte_crlf_free (st : textproto.wstate) (c : ascii) :
  c <> CR ->
  st <> textproto.wstateCR ->
  snd (textproto.write_byte st c) =
    with_crlf ((if is_bol st && Ascii.eqb c DOT then [DOT] else []) ++ [c]) /\
  fst (textproto.write_byte st c) <> textproto.wstateCR.
Proof.
  intros Hc Hst.
  destruct st; try congruence;
    destruct c as [[] [] [] [] [] [] [] []];
    try (exfalso; apply Hc; reflexivity);
    (split; [reflexivity | discriminate]).
Qed.

Lemma with_crlf_app (a b : bytes) : with_crlf (a ++ b) = with_crlf a ++ with_crlf b.
Proof. apply flat_map_app. Qed.

Lemma Write_crlf_free (b : bytes) :
  forall st,
    ~ In CR b ->
    st <> textproto.wstateCR ->
    snd (textproto.Write st [] b) = with_crlf (stuffed (is_bol st) b) /\
    fst (textproto.Write st [] b) <> textproto.wstateCR.
Proof.
  induction b as [|c b IH]; intros st Hno Hst; [split; [reflexivity | exact Hst]|].
  cbn [textproto.Write stuffed].
  destruct (write_byte_crlf_free st c) as [Hout Hst']; [|exact Hst|].
  { intros ->. apply Hno. left. reflexivity. }
  destruct (write_byte_stuffed st c) as (_ & Hbol & _).
  destruct (textproto.write_byte st c) as [st' out].
  cbn [fst snd] in Hout, Hst', Hbol.
  rewrite (Write_app b st' ([] ++ out)). cbn [fst snd app].
  destruct (IH st') as [IHout IHst]; [|exact Hst'|].
  { intros H. apply Hno. right. exact H. }
  split; [|exact IHst].
  rewrite IHout, Hout, Hbol, <- with_crlf_app, <- app_assoc. reflexivity.
Qed.

(** For a payload without carriage return the block is, byte for byte,
    the stuffed payload of the specification with CR LF for line ends. *)
Lemma dot_block_crlf_free (stream : bytes) :
  ~ In CR stream -> dot_block stream = with_crlf (stuffed_block stream).
Proof.
  intros Hno. unfold dot_block, stuffed_block.
  destruct (Write_crlf_free stream textproto.wstateBegin Hno) as [Hout Hst];
    [discriminate|].
  destruct (Write_stuffed stream textproto.wstateBegin) as [_ Hline].
  destruct (textproto.Write textproto.wstateBegin [] stream) as [st out].
  cbn [fst snd is_bol] in Hout, Hst, Hline.
  rewrite Hout, with_crlf_app.
  assert (Hend : is_BeginLine st = ends_line stream).
  { rewrite Hline. destruct stream; reflexivity. }
  rewrite <- Hend. destruct st; try congruence; reflexivity.
Qed.

(** C8, amended. [WriteTextBlock] adds to the connection, when the option
    [MIME] of the session is true, the line
    [Content-type: text/plain; charset=utf-8] and the line
    [Content-transfer-encoding: 8bit], each ended by a line feed, then an
    empty line ended by CR LF, and after them the dot-stuffed payload;
    when the option is false or not set, the dot-stuffed payload alone.
    In both cases the block ends with a line holding a single dot, and
    nothing else of the session changes.  The dot-stuffed payload is,
    carriage returns left aside, the payload as it is with every dot that
    begins a line doubled, a line feed added if it does not end with one,
    and the line holding a dot; for a payload without carriage return it
    is exactly that with CR LF for every line end. *)
Theorem WriteTextBlock_spec (s : Session) (stream : bytes) :
  Connection (WriteTextBlock s stream) =
    Connection s ++
    (if map_index (Options s) (lit "MIME")
     then lit "Content-type: text/plain; charset=utf-8" ++ [LF] ++
          lit "Content-transfer-encoding: 8bit" ++ [LF] ++ [CR; LF]
     else []) ++
    dot_block stream /\
  (exists body, dot_block stream = body ++ [LF; DOT; CR; LF]) /\
  erase_cr (dot_block stream) = erase_cr (stuffed_block stream) /\
  (~ In CR stream -> dot_block stream = with_crlf (stuffed_block stream)) /\
  MsgId (WriteTextBlock s stream) = MsgId s /\
  Client (WriteTextBlock s stream) = Client s /\
  Options (WriteTextBlock s stream) = Options s.
Proof.
  split; [|split; [apply dot_block_end|]].
  - unfold WriteTextBlock, dot_block.
    set (conn := if map_index (Options s) (lit "MIME")
                 then textproto.PrintfLine (Connection s) mime_header
                 else Connection s).
    rewrite (Write_app stream textproto.wstateBegin conn).
    destruct (textproto.Write textproto.wstateBegin [] stream) as [st out].
    cbn [fst snd Connection]. rewrite Close_app, (Close_app st out).
    subst conn. unfold textproto.PrintfLine, mime_header.
    destruct (map_index (Options s) (lit "MIME")).
    + rewrite <- !app_assoc. reflexivity.
    + rewrite <- !app_assoc. reflexivity.
  - split; [apply dot_block_stuffed_payload|].
    split; [apply dot_block_crlf_free|].
    unfold WriteTextBlock.
    destruct (textproto.Write _ _ stream) as [st out]. repeat split.
Qed.

Definition trim_line (line : bytes) : bytes :=
  strings.Trim line [SP; LF; CR; TAB].

Lemma Handle_loop_line (line : bytes) (reads : list read) (w : world) :
  Handle_loop (Line line :: reads) w =
  match trim_line line with
  | [] => Handle_loop reads w
  | _ :: _ =>
      match parseLine (trim_line line) with
      | Err err =>
          Handle_loop reads
            (mkWorld (session w) (calls w) (logged w ++ [LogError err]))
      | Ok command => Handle_loop reads (fst (handleCommand w command))
      | Panic => (Panicked, w)
      end
  end.
Proof. reflexivity. Qed.

Lemma parseLine_nil : parseLine [] = Panic.
Proof. reflexivity. Qed.

Lemma Handle_loop_line_cases (line : bytes) (reads : list read) (w : world) :
  exists w', Handle_loop (Line line :: reads) w = Handle_loop reads w'.
Proof.
  rewrite Handle_loop_line.
  destruct (trim_line line) as [|c l] eqn:Htrim; [eauto|].
  destruct (parseLine (c :: l)) as [command|err|] eqn:Hparse; eauto.
  apply parseLine_panic_nil in Hparse. discriminate.
Qed.

Lemma Handle_loop_returns_iff (reads : list read) :
  forall w, fst (Handle_loop reads w) = Returned <->
            exists err, In (ReadError err) reads.
Proof.
  induction reads as [|[line|err] reads IH]; intros w.
  - simpl. split; [discriminate | intros [err []]].
  - destruct (Handle_loop_line_cases line reads w) as [w' ->].
    rewrite IH. split; intros [err H]; exists err.
    + right. exact H.
    + destruct H as [H|H]; [discriminate | exact H].
  - simpl. split; [|reflexivity]. intros _. exists err. left. reflexivity.
Qed.

Lemma Handle_loop_no_panic (reads : list read) :
  forall w, fst (Handle_loop reads w) <> Panicked.
Proof.
  induction reads as [|[line|err] reads IH]; intros w.
  - discriminate.
  - destruct (Handle_loop_line_cases line reads w) as [w' ->]. apply IH.
  - discriminate.
Qed.

(** C7. Over the reads that the transport delivers, the loop of [Handle]
    returns exactly when one of the reads fails, and it never panics.  On
    a failed read the loop returns at once, with the session and the calls
    of handlers as they were.  A line that is empty once trimmed is
    dropped, and a line that [parseLine] rejects is logged and dropped: in
    both cases the loop goes on with the next read, with the session and
    the calls as they were; a line that parses is dispatched and the loop
    goes on. *)
Theorem Handle_loop_spec (reads : list read) (w : world) :
  (fst (Handle_loop reads w) = Returned <-> exists err, In (ReadError err) reads) /\
  fst (Handle_loop reads w) <> Panicked /\
  (forall err,
      Handle_loop (ReadError err :: reads) w =
      (Returned, mkWorld (session w) (calls w) (logged w ++ [LogError err]))) /\
  (forall line,
      trim_line line = [] ->
      Handle_loop (Line line :: reads) w = Handle_loop reads w) /\
  (forall line err,
      parseLine (trim_line line) = Err err ->
      Handle_loop (Line line :: reads) w =
      Handle_loop reads (mkWorld (session w) (calls w) (logged w ++ [LogError err]))) /\
  (forall line command,
      parseLine (trim_line line) = Ok command ->
      Handle_loop (Line line :: reads) w =
      Handle_loop reads (fst (handleCommand w command))).
Proof.
  split; [apply Handle_loop_returns_iff|].
  split; [apply Handle_loop_no_panic|].
  split; [reflexivity|].
  split; [|split].
  - intros line Htrim. rewrite Handle_loop_line, Htrim. reflexivity.
  - intros line err Hparse. rewrite Handle_loop_line.
    destruct (trim_line line); [rewrite parseLine_nil in Hparse; discriminate|].
    rewrite Hparse. reflexivity.
  - intros line command Hparse. rewrite Handle_loop_line.
    destruct (trim_line line); [rewrite parseLine_nil in Hparse; discriminate|].
    rewrite Hparse. reflexivity.
Qed.

End Dictd.

(** * A server with one handler

    The parameters of the session, set to a server that registers one
    handler, for the verb [DEFINE]: it answers with a text block and
    overwrites its copy of the command. *)

Module Demo.

Inductive name : Type := define.

Definition GetHandler (_ : unit) (c : Command) : option name :=
  if bytes_eqb (Command_ c) (lit "DEFINE") then Some define else None.

Definition registered (_ : name) : handler unit :=
  fun s _ => (WriteTextBlock unit s (lit "hello"), mkCommand [] []).

Definition unknownCommandHandler : handler unit :=
  fun s c => (mkSession unit (MsgId unit s) (Client unit s)
                (textproto.PrintfLine (Connection unit s) (lit "500 unknown command"))
                (DictServer unit s) (Options unit s), c).

Definition run (reads : list read) : loop_end * world unit name :=
  Handle unit (fun _ => lit "dict") name GetHandler registered
    unknownCommandHandler (fun s => s) (lit "17") tt reads.

Example run_calls :
  let out := run [Line (lit "  define wn hello ");
                  Line (lit "   ");
                  Line (DQUOTE :: lit "a'b");
                  Line (lit "quit");
                  ReadError (lit "EOF");
                  Line (lit "define wn late")] in
  fst out = Returned /\
  calls unit name (snd out) =
    [CallRegistered name define (mkCommand (lit "DEFINE") [lit "wn"; lit "hello"]);
     CallUnknown name (mkCommand (lit "QUIT") [])] /\
  Connection unit (session unit name (snd out)) =
    lit "hello" ++ [CR; LF] ++ [DOT; CR; LF] ++
    lit "500 unknown command" ++ [CR; LF].
Proof. split; [|split]; reflexivity. Qed.

End Demo.

(** C8 as stated fails: with the option [MIME] true and the payload [a],
    what is written is the two header lines, each ended by a line feed,
    an empty line ended by CR LF, and then the block of the payload; it is
    not the two header lines followed at once by that block, whether the
    lines end with CR LF or with a line feed. *)
Lemma WriteTextBlock_counterexample :
  map_index [(lit "MIME", true)] (lit "MIME") = true /\
  dot_block (lit "a") = lit "a" ++ [CR; LF; DOT; CR; LF] /\
  Connection unit
    (WriteTextBlock unit (mkSession unit [] [] [] tt [(lit "MIME", true)]) (lit "a")) =
    lit "Content-type: text/plain; charset=utf-8" ++ [LF] ++
    lit "Content-transfer-encoding: 8bit" ++ [LF] ++
    [CR; LF] ++ dot_block (lit "a") /\
  Connection unit
    (WriteTextBlock unit (mkSession unit [] [] [] tt [(lit "MIME", true)]) (lit "a")) <>
    lit "Content-type: text/plain; charset=utf-8" ++ [CR; LF] ++
    lit "Content-transfer-encoding: 8bit" ++ [CR; LF] ++
    dot_block (lit "a") /\
  Connection unit
    (WriteTextBlock unit (mkSession unit [] [] [] tt [(lit "MIME", true)]) (lit "a")) <>
    lit "Content-type: text/plain; charset=utf-8" ++ [LF] ++
    lit "Content-transfer-encoding: 8bit" ++ [LF] ++
    dot_block (lit "a").
Proof.
  split; [reflexivity|]. split; [reflexivity|]. split; [reflexivity|].
  split; intros H; vm_compute in H; discriminate.
Qed.

(** * Dispatch and the array of [Params]

    [handleCommand] calls the handler with [*command], a copy of the
    struct.  The field [Params] is a slice, [tokens[1:]] in [parseLine]:
    the copy holds the same slice, over the same array as the command of
    the caller, so what a handler writes to an element of [Params] is
    written to the command of the caller.  Here the arrays of the slices
    lie in a heap and the handlers act on it. *)

Module Shared.

(** The arrays of strings, by address. *)
Definition heap : Type := list (list bytes).

(** A slice of strings: the address of its array, the index of its first
    element in the array and its length (its capacity plays no part
    here). *)
Record slice : Type := mkSlice {
  array : nat;
  offset : nat;
  len : nat
}.

(** The [Command] struct as it lies in memory, which [*command] copies. *)
Record Command : Type := mkCommand {
  Command_ : bytes;
  Params : slice
}.

Definition elements (h : heap) (s : slice) : option (list bytes) :=
  match nth_error h (array s) with
  | Some a => Some (firstn (len s) (skipn (offset s) a))
  | None => None
  end.

(** What is read in a command: its verb and its parameters. *)
Definition read (h : heap) (c : Command) : option (bytes * list bytes) :=
  match elements h (Params c) with
  | Some params => Some (Command_ c, params)
  | None => None
  end.

Fixpoint set_nth {A : Type} (l : list A) (i : nat) (v : A) : list A :=
  match l, i with
  | [], _ => []
  | _ :: l', 0 => v :: l'
  | x :: l', S i' => x :: set_nth l' i' v
  end.

(** The assignment [s[i] = v], for [i] in bounds. *)
Definition assign (h : heap) (s : slice) (i : nat) (v : bytes) : heap :=
  match nth_error h (array s) with
  | Some a =>
      if i <? len s then set_nth h (array s) (set_nth a (offset s + i) v) else h
  | None => h
  end.

(** [parseLine] with its slices in the heap: [tokens] has an array of its
    own and [Params] is [tokens[1:]], the slice of that array from index 1
    on. *)
Definition parseLine (h : heap) (line : bytes) : result (heap * Command) :=
  match tokenizeLine line with
  | Err err => Err err
  | Panic => Panic
  | Ok tokens =>
      match tokens with
      | [] => Panic
      | first :: others =>
          Ok (h ++ [tokens],
              mkCommand (strings.ToUpper first)
                (mkSlice (length h) 1 (length others)))
      end
  end.

Section Dispatch.

Variable Server : Type.
Variable handler_name : Type.

(** A handler is called with the pointer to the session and a [Command]
    value: it leaves a session and a heap. *)
Definition handler : Type :=
  Session Server -> Command -> heap -> Session Server * heap.

Variable GetHandler : Server -> Command -> option handler_name.
Variable registered : handler_name -> handler.
Variable unknownCommandHandler : handler.

Inductive call : Type :=
| CallRegistered (h : handler_name) (arg : Command)
| CallUnknown (arg : Command).

Record world : Type := mkWorld {
  session : Session Server;
  memory : heap;
  calls : list call;
  logged : list log_line
}.

(** [handleCommand(session, command)]: the world after the call and the
    struct that [command] points to after the call. *)
Definition handleCommand (w : world) (command : Command) : world * Command :=
  let logged' :=
    logged w ++ [LogIncoming (MsgId Server (session w)) (Command_ command)] in
  match GetHandler (DictServer Server (session w)) command with
  | None =>
      let (session', memory') :=
        unknownCommandHandler (session w) command (memory w) in
      (mkWorld session' memory' (calls w ++ [CallUnknown command]) logged', command)
  | Some h =>
      let (session', memory') := registered h (session w) command (memory w) in
      (mkWorld session' memory' (calls w ++ [CallRegistered h command]) logged',
       command)
  end.

(** C6, amended. [handleCommand] makes exactly one call: of the registered
    handler when the lookup of the command finds one, of the handler of
    unknown commands otherwise.  The handler is called with a copy of the
    struct of the command, and the session and the heap are left as that
    handler leaves them.  After the call the struct of the caller is the
    same: the same verb and the same slice [Params], over the same array.
    The elements of [Params] are those of that array, which the copy
    shares: the command reads the same after the call if the handler has
    left that array as it was. *)
Theorem handleCommand_dispatch (w : world) (command : Command) :
  snd (handleCommand w command) = command /\
  (exists c,
      calls (fst (handleCommand w command)) = calls w ++ [c] /\
      match GetHandler (DictServer Server (session w)) command with
      | Some h =>
          c = CallRegistered h command /\
          (session (fst (handleCommand w command)),
           memory (fst (handleCommand w command))) =
            registered h (session w) command (memory w)
      | None =>
          c = CallUnknown command /\
          (session (fst (handleCommand w command)),
           memory (fst (handleCommand w command))) =
            unknownCommandHandler (session w) command (memory w)
      end) /\
  (nth_error (memory (fst (handleCommand w command))) (array (Params command)) =
     nth_error (memory w) (array (Params command)) ->
   read (memory (fst (handleCommand w command))) command =
     read (memory w) command).
Proof.
  split; [|split].
  - unfold handleCommand.
    destruct (GetHandler _ command) as [h|].
    + destruct (registered h _ command _). reflexivity.
    + destruct (unknownCommandHandler _ command _). reflexivity.
  - unfold handleCommand.
    destruct (GetHandler _ command) as [h|].
    + destruct (registered h _ command _) as [session' memory'].
      exists (CallRegistered h command). repeat split.
    + destruct (unknownCommandHandler _ command _) as [session' memory'].
      exists (CallUnknown command). repeat split.
  - intros H. unfold read, elements. rewrite H. reflexivity.
Qed.

End Dispatch.

(** The command that [parseLine] stores reads as the command it
    returns. *)
Lemma parseLine_read (h : heap) (line : bytes) (h' : heap) (c : Command) :
  parseLine h line = Ok (h', c) ->
  exists first others,
    tokenizeLine line = Ok (first :: others) /\
    read h' c = Some (strings.ToUpper first, others).
Proof.
  unfold parseLine.
  destruct (tokenizeLine line) as [[|first others]|err|]; try discriminate.
  intros H. injection H as <- <-. exists first, others.
  split; [reflexivity|].
  unfold read, elements. cbn [Params array offset len Command_].
  rewrite nth_error_app2, Nat.sub_diag by lia. cbn [nth_error skipn].
  rewrite firstn_all. reflexivity.
Qed.

(** A handler that assigns to [Params[0]] of the command it is given. *)
Definition overwrite : handler unit :=
  fun s c h => (s, assign h (Params c) 0 (lit "X")).

(** C6 as stated fails: the command parsed from the line
    [define wn hello] reads [DEFINE] with [wn] and [hello]; after
    [handleCommand] has called a handler that assigns to [Params[0]] of
    its copy, the command of the caller, the same struct, reads [DEFINE]
    with [X] and [hello]. *)
Lemma handleCommand_counterexample :
  parseLine [] (lit "define wn hello") =
    Ok ([[lit "define"; lit "wn"; lit "hello"]],
        mkCommand (lit "DEFINE") (mkSlice 0 1 2)) /\
  read [[lit "define"; lit "wn"; lit "hello"]]
    (mkCommand (lit "DEFINE") (mkSlice 0 1 2)) =
    Some (lit "DEFINE", [lit "wn"; lit "hello"]) /\
  snd (handleCommand unit unit (fun _ _ => Some tt) (fun _ => overwrite)
         (fun s _ h => (s, h))
         (mkWorld unit unit (mkSession unit [] [] [] tt [])
            [[lit "define"; lit "wn"; lit "hello"]] [] [])
         (mkCommand (lit "DEFINE") (mkSlice 0 1 2))) =
    mkCommand (lit "DEFINE") (mkSlice 0 1 2) /\
  read
    (memory unit unit
       (fst (handleCommand unit unit (fun _ _ => Some tt) (fun _ => overwrite)
               (fun s _ h => (s, h))
               (mkWorld unit unit (mkSession unit [] [] [] tt [])
                  [[lit "define"; lit "wn"; lit "hello"]] [] [])
               (mkCommand (lit "DEFINE") (mkSlice 0 1 2)))))
    (mkCommand (lit "DEFINE") (mkSlice 0 1 2)) =
    Some (lit "DEFINE", [lit "X"; lit "hello"]) /\
  Some (lit "DEFINE", [lit "X"; lit "hello"]) <>
    Some (lit "DEFINE", [lit "wn"; lit "hello"]).
Proof.
  split; [reflexivity|]. split; [reflexivity|]. split; [reflexivity|].
  split; [reflexivity | discriminate].
Qed.

End Shared.

(** * Further properties of socket.go *)

(** ** [cleanup] *)

Definition is_space (c : ascii) : bool :=
  strings.in_cutset [SP; TAB; CR; LF] c.

(** Neither the first nor the last byte of [s] is white space. *)
Definition trimmed (s : bytes) : Prop :=
  (forall c r, s = c :: r -> is_space c = false) /\
  (forall r c, s = r ++ [c] -> is_space c = false).

Lemma TrimLeft_split (s cutset : bytes) :
  exists pre,
    s = pre ++ strings.TrimLeft s cutset /\
    forallb (strings.in_cutset cutset) pre = true.
Proof.
  induction s as [|c s (pre & Hs & Hpre)]; simpl.
  - exists []. split; reflexivity.
  - destruct (strings.in_cutset cutset c) eqn:Hc.
    + exists (c :: pre). simpl. rewrite Hc, Hpre. split; [congruence | reflexivity].
    + exists []. split; reflexivity.
Qed.

Lemma TrimLeft_head (s cutset : bytes) (c : ascii) (r : bytes) :
  strings.TrimLeft s cutset = c :: r -> strings.in_cutset cutset c = false.
Proof.
  induction s as [|x s IH]; simpl; [discriminate|].
  destruct (strings.in_cutset cutset x) eqn:Hx; [exact IH|].
  intros H. injection H as <- _. exact Hx.
Qed.

Lemma TrimLeft_id (s cutset : bytes) :
  (forall c r, s = c :: r -> strings.in_cutset cutset c = false) ->
  strings.TrimLeft s cutset = s.
Proof.
  destruct s as [|c r]; [reflexivity|]. intros H. simpl.
  rewrite (H c r eq_refl). reflexivity.
Qed.

Lemma TrimRight_split (s cutset : bytes) :
  exists suf,
    s = strings.TrimRight s cutset ++ suf /\
    forallb (strings.in_cutset cutset) suf = true.
Proof.
  unfold strings.TrimRight.
  destruct (TrimLeft_split (rev s) cutset) as (pre & Hs & Hpre).
  exists (rev pre). split.
  - rewrite <- rev_app_distr, <- Hs, rev_involutive. reflexivity.
  - rewrite forallb_forall in *. intros x Hx. apply Hpre, in_rev, Hx.
Qed.

Lemma TrimRight_last (s cutset r : bytes) (c : ascii) :
  strings.TrimRight s cutset = r ++ [c] -> strings.in_cutset cutset c = false.
Proof.
  unfold strings.TrimRight. intros H.
  apply (f_equal (@rev ascii)) in H.
  rewrite rev_involutive, rev_app_distr in H. simpl in H.
  apply (TrimLeft_head _ _ _ _ H).
Qed.

Lemma TrimRight_id (s cutset : bytes) :
  (forall r c, s = r ++ [c] -> strings.in_cutset cutset c = false) ->
  strings.TrimRight s cutset = s.
Proof.
  intros H. unfold strings.TrimRight.
  rewrite TrimLeft_id; [apply rev_involutive|].
  intros c r Hrev. apply (H (rev r) c).
  rewrite <- (rev_involutive s), Hrev. reflexivity.
Qed.

Lemma cleanup_trimmed (el : bytes) : trimmed (cleanup el).
Proof.
  unfold cleanup, strings.Trim. split.
  - intros c r H.
    destruct (TrimRight_split (strings.TrimLeft el [SP; TAB; CR; LF]) [SP; TAB; CR; LF])
      as (suf & Hs & _).
    rewrite H in Hs. apply (TrimLeft_head _ _ _ _ Hs).
  - intros r c H. apply (TrimRight_last _ _ _ _ H).
Qed.

Lemma cleanup_id (s : bytes) : trimmed s -> cleanup s = s.
Proof.
  intros [Hhead Hlast]. unfold cleanup, strings.Trim.
  rewrite (TrimLeft_id s _ Hhead). apply (TrimRight_id s _ Hlast).
Qed.

(** X1. [cleanup] only removes white space (space, tab, CR, LF) from the
    two ends: its argument is a run of white space, the result, and a run
    of white space, and the result neither begins nor ends with white
    space. *)
Theorem cleanup_spec (el : bytes) :
  exists pre suf,
    el = pre ++ cleanup el ++ suf /\
    forallb is_space pre = true /\
    forallb is_space suf = true /\
    trimmed (cleanup el).
Proof.
  destruct (TrimLeft_split el [SP; TAB; CR; LF]) as (pre & Hpre & Hws).
  destruct (TrimRight_split (strings.TrimLeft el [SP; TAB; CR; LF]) [SP; TAB; CR; LF])
    as (suf & Hsuf & Hws').
  exists pre, suf. split; [|split; [exact Hws | split; [exact Hws' | apply cleanup_trimmed]]].
  unfold cleanup, strings.Trim. rewrite <- Hsuf. exact Hpre.
Qed.

(** X2. [cleanup] is idempotent, and it leaves alone every string that
    neither begins nor ends with white space. *)
Theorem cleanup_idempotent (el : bytes) :
  cleanup (cleanup el) = cleanup el /\
  (forall s, trimmed s -> cleanup s = s).
Proof.
  split; [apply cleanup_id, cleanup_trimmed | apply cleanup_id].
Qed.

(** ** [consumeAtom] and [consumeString] *)

Lemma atom_split_unique (token token' rest rest' : bytes) :
  token ++ rest = token' ++ rest' ->
  ~ In SP token -> ~ In SP token' ->
  (rest = [] \/ exists r, rest = SP :: r) ->
  (rest' = [] \/ exists r, rest' = SP :: r) ->
  token = token' /\ rest = rest'.
Proof.
  revert token'. induction token as [|c token IH]; intros [|c' token'] H Hno Hno' Hr Hr';
    cbn [app] in H.
  - split; [reflexivity | exact H].
  - exfalso. destruct Hr as [->|(r & ->)]; [discriminate|].
    injection H as <- _. apply Hno'. left. reflexivity.
  - exfalso. destruct Hr' as [->|(r & ->)]; [discriminate|].
    injection H as -> _. apply Hno. left. reflexivity.
  - injection H as -> H.
    destruct (IH token' H) as [-> ->]; try assumption; try (split; reflexivity).
    + intros Hin. apply Hno. right. exact Hin.
    + intros Hin. apply Hno'. right. exact Hin.
Qed.

(** X3. [consumeAtom] never fails and splits the buffer at its first
    space: it returns [token] and the new buffer [line'] exactly when the
    buffer is [token], which holds no space, and then a rest that is empty
    or begins with a space, and [line'] is that rest cleaned up. *)
Theorem consumeAtom_spec (buf token line' : bytes) :
  consumeAtom buf = Ok (token, line') <->
  exists rest,
    buf = token ++ rest /\
    ~ In SP token /\
    (rest = [] \/ exists rest', rest = SP :: rest') /\
    line' = cleanup rest.
Proof.
  destruct (consumeAtom_split buf) as (tok & rest & Hbuf & Hno & Hrest & Hrun).
  rewrite Hrun. split.
  - intros H. injection H as <- <-. exists rest.
    split; [exact Hbuf|]. split; [exact Hno|]. split; [exact Hrest | reflexivity].
  - intros (rest' & Hbuf' & Hno' & Hrest' & ->).
    rewrite Hbuf in Hbuf'.
    destruct (atom_split_unique _ _ _ _ Hbuf' Hno Hno' Hrest Hrest') as [-> ->].
    reflexivity.
Qed.

(** A parameter as a client writes it between quotes: a backslash before
    each quote character. *)
Fixpoint escape_quotes (p : bytes) : bytes :=
  match p with
  | [] => []
  | c :: p' =>
      if is_quote c then BACKSLASH :: c :: escape_quotes p'
      else c :: escape_quotes p'
  end.

Lemma Replace_backslash_app (a b : bytes) :
  strings.Replace_backslash (a ++ b) =
  strings.Replace_backslash a ++ strings.Replace_backslash b.
Proof. apply filter_app. Qed.

Lemma Replace_backslash_escape (p : bytes) :
  ~ In BACKSLASH p -> strings.Replace_backslash (escape_quotes p) = p.
Proof.
  induction p as [|c p IH]; intros Hno; [reflexivity|].
  assert (Hc : Ascii.eqb c BACKSLASH = false).
  { apply Ascii.eqb_neq. intros ->. apply Hno. left. reflexivity. }
  assert (Hp : ~ In BACKSLASH p) by (intros H; apply Hno; right; exact H).
  simpl. destruct (is_quote c); simpl; rewrite Hc; simpl; rewrite (IH Hp); reflexivity.
Qed.

Lemma firstn_length_app (pre rest : bytes) :
  firstn (length pre) (pre ++ rest) = pre.
Proof.
  rewrite firstn_app, Nat.sub_diag, firstn_all. simpl. apply app_nil_r.
Qed.

Lemma skipn_length_app (pre rest : bytes) (c : ascii) :
  skipn (S (length pre)) (pre ++ c :: rest) = rest.
Proof.
  rewrite skipn_app, skipn_all2 by lia.
  replace (S (length pre) - length pre) with 1 by lia. reflexivity.
Qed.

Lemma consumeString_range_escaped (q : ascii) (rest p : bytes) :
  is_quote q = true ->
  forall pre,
    ~ In BACKSLASH p ->
    consumeString_range [q] (pre ++ escape_quotes p ++ q :: rest) false
      (length pre) (escape_quotes p ++ q :: rest) =
    Ok (strings.Replace_backslash (pre ++ escape_quotes p), cleanup rest).
Proof.
  intros Hq. induction p as [|c p IH]; intros pre Hno.
  - cbn [escape_quotes app consumeString_range].
    rewrite Ascii.eqb_refl. cbn [negb].
    rewrite firstn_length_app, skipn_length_app, app_nil_r. reflexivity.
  - assert (Hc : Ascii.eqb c BACKSLASH = false).
    { apply Ascii.eqb_neq. intros ->. apply Hno. left. reflexivity. }
    assert (Hp : ~ In BACKSLASH p) by (intros H; apply Hno; right; exact H).
    cbn [escape_quotes]. destruct (is_quote c) eqn:Hqc.
    + cbn [app]. rewrite consumeString_range_skip by (exact Hq || reflexivity).
      rewrite consumeString_range_skip by (exact Hq || (rewrite Hqc; reflexivity)).
      rewrite Hc.
      replace (pre ++ BACKSLASH :: c :: escape_quotes p ++ q :: rest)
        with ((pre ++ [BACKSLASH; c]) ++ escape_quotes p ++ q :: rest)
        by (rewrite <- app_assoc; reflexivity).
      replace (S (S (length pre))) with (length (pre ++ [BACKSLASH; c]))
        by (rewrite length_app; simpl; lia).
      rewrite (IH _ Hp), <- app_assoc. reflexivity.
    + cbn [app]. rewrite consumeString_range_skip by (exact Hq || (rewrite Hqc; reflexivity)).
      rewrite Hc.
      replace (pre ++ c :: escape_quotes p ++ q :: rest)
        with ((pre ++ [c]) ++ escape_quotes p ++ q :: rest)
        by (rewrite <- app_assoc; reflexivity).
      replace (S (length pre)) with (length (pre ++ [c]))
        by (rewrite length_app; simpl; lia).
      rewrite (IH _ Hp), <- app_assoc. reflexivity.
Qed.

Lemma consumeString_escaped (q : ascii) (p rest : bytes) :
  is_quote q = true ->
  ~ In BACKSLASH p ->
  consumeString [q] (escape_quotes p ++ q :: rest) = Ok (p, cleanup rest).
Proof.
  intros Hq Hno. unfold consumeString.
  pose proof (consumeString_range_escaped q rest p Hq [] Hno) as H.
  cbn [app length] in H. rewrite H, (Replace_backslash_escape p Hno). reflexivity.
Qed.

(** X4. Round trip of a quoted parameter.  For a parameter [p] without
    backslash, written after the opening quote with a backslash before
    each of its quote characters and closed by the quote that opened it,
    [consumeString] returns [p] itself, and what follows the closing
    quote, cleaned up. *)
Theorem consumeString_escape_quotes (q : ascii) (p rest : bytes) :
  is_quote q = true ->
  ~ In BACKSLASH p ->
  consumeString [q] (escape_quotes p ++ q :: rest) = Ok (p, cleanup rest).
Proof.
  apply consumeString_escaped.
Qed.

Lemma consumeString_escape_quotes_witness :
  consumeString [DQUOTE]
    (escape_quotes (lit "it's " ++ DQUOTE :: lit "x" ++ [DQUOTE]) ++ DQUOTE :: lit "  y ") =
  Ok (lit "it's " ++ DQUOTE :: lit "x" ++ [DQUOTE], cleanup (lit "  y ")).
Proof.
  apply (consumeString_escape_quotes DQUOTE).
  - reflexivity.
  - intros H. simpl in H. repeat (destruct H as [H|H]; [discriminate|]). exact H.
Defined.

(** X5. [tokenizeLine] never panics, whatever the line: the index
    [quote[0]] of [consumeString] is always in bounds there; and the only
    error it returns is [bad char]. *)
Theorem tokenizeLine_safe (line : bytes) :
  tokenizeLine line <> Panic /\
  (forall err, tokenizeLine line = Err err -> err = bad_char).
Proof.
  split; [apply tokenizeLine_no_panic|].
  intros err H. apply tokenizeLine_fails_at in H.
  destruct H as (leader & after & tokens & _ & Hnext).
  destruct (is_quote leader) eqn:Hq.
  - rewrite (next_token_quote _ _ Hq) in Hnext.
    destruct (unescaped_quote_cases after false) as [(k & c & Hfirst)|Hnone].
    + rewrite (consumeString_first _ _ _ _ Hq Hfirst) in Hnext.
      destruct (Ascii.eqb c leader); [discriminate|].
      injection Hnext as <-. reflexivity.
    + rewrite (consumeString_none _ _ Hq Hnone) in Hnext. discriminate.
  - rewrite (next_token_atom _ _ Hq) in Hnext.
    destruct (consumeAtom_split (leader :: after)) as (tok & rest & _ & _ & _ & Hrun).
    rewrite Hrun in Hnext. discriminate.
Qed.

(** ** How the tokens of a line compose *)

(** The result of the loop once [token] has been put in front. *)
Definition prepend (token : bytes) (r : result (list bytes)) : result (list bytes) :=
  match r with
  | Ok ts => Ok (token :: ts)
  | Err err => Err err
  | Panic => Panic
  end.

Lemma tokenizeLine_step (leader : ascii) (after token line' : bytes) :
  next_token leader after = Ok (token, line') ->
  tokenizeLine (leader :: after) = prepend token (tokenizeLine line').
Proof. intros H. rewrite tokenizeLine_cons, H. reflexivity. Qed.

Lemma skipn_length_app0 (pre rest : bytes) :
  skipn (length pre) (pre ++ rest) = rest.
Proof. rewrite skipn_app, skipn_all, Nat.sub_diag. reflexivity. Qed.

Lemma consumeAtom_range_word (rest w : bytes) :
  forall pre,
    ~ In SP w ->
    consumeAtom_range (pre ++ w ++ SP :: rest) (length pre) (w ++ SP :: rest) =
    Ok (pre ++ w, cleanup (SP :: rest)).
Proof.
  induction w as [|c w IH]; intros pre Hno.
  - cbn [app consumeAtom_range]. rewrite Ascii.eqb_refl.
    rewrite firstn_length_app, skipn_length_app0, app_nil_r. reflexivity.
  - cbn [app consumeAtom_range].
    destruct (Ascii.eqb_spec c SP) as [->|_]; [exfalso; apply Hno; left; reflexivity|].
    replace (pre ++ c :: w ++ SP :: rest) with ((pre ++ [c]) ++ w ++ SP :: rest)
      by (rewrite <- app_assoc; reflexivity).
    replace (S (length pre)) with (length (pre ++ [c]))
      by (rewrite length_app; simpl; lia).
    rewrite IH by (intros H; apply Hno; right; exact H).
    rewrite <- app_assoc. reflexivity.
Qed.

Lemma consumeAtom_range_end (buf w : bytes) :
  forall i, ~ In SP w -> consumeAtom_range buf i w = Ok (buf, []).
Proof.
  induction w as [|c w IH]; intros i Hno; [reflexivity|].
  cbn [consumeAtom_range].
  destruct (Ascii.eqb_spec c SP) as [->|_]; [exfalso; apply Hno; left; reflexivity|].
  apply IH. intros H. apply Hno. right. exact H.
Qed.

Lemma tokenizeLine_atom_step (w rest : bytes) :
  ~ In SP w ->
  is_quote (hd SP w) = false ->
  tokenizeLine (w ++ SP :: rest) =
  prepend w (tokenizeLine (cleanup (SP :: rest))).
Proof.
  intros Hno Hhead.
  assert (Hrun : consumeAtom (w ++ SP :: rest) = Ok (w, cleanup (SP :: rest))).
  { apply (consumeAtom_range_word rest w [] Hno). }
  destruct w as [|c w]; cbn [app hd] in *.
  - apply tokenizeLine_step. rewrite next_token_atom by reflexivity. exact Hrun.
  - apply tokenizeLine_step. rewrite next_token_atom by exact Hhead. exact Hrun.
Qed.

Lemma tokenizeLine_atom_last (w : bytes) :
  ~ In SP w ->
  is_quote (hd SP w) = false ->
  w <> [] ->
  tokenizeLine w = Ok [w].
Proof.
  intros Hno Hhead Hne. destruct w as [|c w]; [congruence|]. cbn [hd] in Hhead.
  rewrite (tokenizeLine_step c w (c :: w) []); [rewrite tokenizeLine_nil; reflexivity|].
  rewrite next_token_atom by exact Hhead.
  apply (consumeAtom_range_end (c :: w) (c :: w) 0 Hno).
Qed.

(** X6. An atom and what follows it.  For [w] without a space and not
    beginning with a quote character, the tokens of [w], a space and
    [rest] are [w] followed by the tokens of the cleaned-up remainder, and
    the error of that remainder if it has one; and a non-empty [w] alone
    is its own single token. *)
Theorem tokenizeLine_atom (w : bytes) :
  ~ In SP w ->
  is_quote (hd SP w) = false ->
  (forall rest,
      tokenizeLine (w ++ SP :: rest) =
      prepend w (tokenizeLine (cleanup (SP :: rest)))) /\
  (w <> [] -> tokenizeLine w = Ok [w]).
Proof.
  intros Hno Hhead. split.
  - intros rest. apply tokenizeLine_atom_step; assumption.
  - apply tokenizeLine_atom_last; assumption.
Qed.

Lemma tokenizeLine_atom_witness :
  (forall rest,
      tokenizeLine (lit "it's" ++ SP :: rest) =
      prepend (lit "it's") (tokenizeLine (cleanup (SP :: rest)))) /\
  (lit "it's" <> [] -> tokenizeLine (lit "it's") = Ok [lit "it's"]).
Proof.
  apply (tokenizeLine_atom (lit "it's")).
  - intros H. simpl in H. repeat (destruct H as [H|H]; [discriminate|]). exact H.
  - reflexivity.
Defined.

(** X7. A quoted parameter and what follows it.  For [p] without
    backslash, the tokens of the line that opens with a quote, goes on
    with [p] written with a backslash before each quote character, the
    same quote again and [rest], are [p] followed by the tokens of [rest]
    cleaned up. *)
Theorem tokenizeLine_quoted (q : ascii) (p rest : bytes) :
  is_quote q = true ->
  ~ In BACKSLASH p ->
  tokenizeLine (q :: escape_quotes p ++ q :: rest) =
  prepend p (tokenizeLine (cleanup rest)).
Proof.
  intros Hq Hno. apply tokenizeLine_step.
  rewrite next_token_quote by exact Hq.
  apply consumeString_escaped; assumption.
Qed.

Lemma tokenizeLine_quoted_witness :
  tokenizeLine (DQUOTE :: escape_quotes (lit "hello world") ++ DQUOTE :: lit " wn") =
  prepend (lit "hello world") (tokenizeLine (cleanup (lit " wn"))).
Proof.
  apply (tokenizeLine_quoted DQUOTE).
  - reflexivity.
  - intros H. simpl in H. repeat (destruct H as [H|H]; [discriminate|]). exact H.
Defined.

(** Words joined by single spaces. *)
Fixpoint unwords (words : list bytes) : bytes :=
  match words with
  | [] => []
  | w :: ws =>
      match ws with
      | [] => w
      | _ :: _ => w ++ SP :: unwords ws
      end
  end.

(** A word that needs no quotes: not empty, without white space, not
    beginning with a quote character. *)
Definition plain_word (w : bytes) : bool :=
  match w with
  | [] => false
  | c :: _ => negb (is_quote c) && forallb (fun x => negb (is_space x)) w
  end.

Lemma plain_word_inv (w : bytes) :
  plain_word w = true ->
  w <> [] /\ is_quote (hd SP w) = false /\ ~ In SP w /\
  (forall c, In c w -> is_space c = false).
Proof.
  destruct w as [|c w]; [discriminate|]. unfold plain_word.
  intros H. apply andb_true_iff in H. destruct H as [Hq Hws].
  rewrite forallb_forall in Hws.
  assert (Hall : forall x, In x (c :: w) -> is_space x = false).
  { intros x Hx. apply negb_true_iff, Hws, Hx. }
  split; [discriminate|]. split; [apply negb_true_iff, Hq|].
  split; [|exact Hall].
  intros Hin. apply Hall in Hin. discriminate.
Qed.

Lemma last_of_app (a b r : bytes) (c : ascii) :
  b <> [] -> a ++ b = r ++ [c] -> exists r', b = r' ++ [c].
Proof.
  intros Hb H. destruct (exists_last Hb) as (r' & c' & ->).
  rewrite app_assoc in H. apply app_inj_tail in H. destruct H as [_ ->].
  exists r'. reflexivity.
Qed.

Lemma unwords_trimmed (w : bytes) (ws : list bytes) :
  forallb plain_word (w :: ws) = true -> trimmed (unwords (w :: ws)).
Proof.
  revert w. induction ws as [|w' ws IH]; intros w Hall.
  - cbn [forallb] in Hall. apply andb_true_iff in Hall. destruct Hall as [Hw _].
    apply plain_word_inv in Hw. destruct Hw as (_ & _ & _ & Hws).
    cbn [unwords]. split.
    + intros c r ->. apply Hws. left. reflexivity.
    + intros r c ->. apply Hws, in_or_app. right. left. reflexivity.
  - cbn [forallb] in Hall. apply andb_true_iff in Hall. destruct Hall as [Hw Hrest].
    apply plain_word_inv in Hw. destruct Hw as (Hne & _ & _ & Hws).
    specialize (IH w' Hrest). change (unwords (w :: w' :: ws))
      with (w ++ SP :: unwords (w' :: ws)). split.
    + intros c r H. destruct w as [|x w]; [congruence|].
      injection H as -> _. apply Hws. left. reflexivity.
    + intros r c H.
      assert (Hnonempty : unwords (w' :: ws) <> []).
      { cbn [forallb] in Hrest. apply andb_true_iff in Hrest. destruct Hrest as [Hw' _].
        apply plain_word_inv in Hw'. destruct Hw' as (Hne' & _).
        cbn [unwords]. destruct ws; [exact Hne'|].
        destruct w'; [congruence | discriminate]. }
      change (w ++ SP :: unwords (w' :: ws))
        with (w ++ [SP] ++ unwords (w' :: ws)) in H.
      rewrite app_assoc in H.
      destruct (last_of_app _ _ _ _ Hnonempty H) as [r' Hr'].
      apply (proj2 IH r' c Hr').
Qed.

Lemma cleanup_space (s : bytes) : cleanup (SP :: s) = cleanup s.
Proof. reflexivity. Qed.

(** X8. Round trip of plain words.  Words that are not empty, hold no
    white space and do not begin with a quote character, joined by single
    spaces, are tokenized into exactly these words. *)
Theorem tokenizeLine_unwords (words : list bytes) :
  forallb plain_word words = true ->
  tokenizeLine (unwords words) = Ok words.
Proof.
  induction words as [|w ws IH]; intros Hall; [apply tokenizeLine_nil|].
  pose proof Hall as Hall'.
  cbn [forallb] in Hall. apply andb_true_iff in Hall. destruct Hall as [Hw Hrest].
  apply plain_word_inv in Hw. destruct Hw as (Hne & Hq & Hsp & _).
  destruct ws as [|w' ws].
  - apply tokenizeLine_atom_last; assumption.
  - change (unwords (w :: w' :: ws)) with (w ++ SP :: unwords (w' :: ws)).
    rewrite (tokenizeLine_atom_step w _ Hsp Hq), cleanup_space.
    rewrite (cleanup_id _ (unwords_trimmed w' ws Hrest)), (IH Hrest).
    reflexivity.
Qed.

Lemma tokenizeLine_unwords_witness :
  tokenizeLine (unwords [lit "MATCH"; lit "wn"; lit "prefix"; lit "it's"]) =
  Ok [lit "MATCH"; lit "wn"; lit "prefix"; lit "it's"].
Proof.
  apply (tokenizeLine_unwords [lit "MATCH"; lit "wn"; lit "prefix"; lit "it's"]).
  reflexivity.
Defined.

(** ** What the tokens are made of *)

Lemma cleanup_incl (el : bytes) (c : ascii) : In c (cleanup el) -> In c el.
Proof.
  unfold cleanup, strings.Trim. intros H.
  destruct (TrimLeft_split el [SP; TAB; CR; LF]) as (pre & Hpre & _).
  destruct (TrimRight_split (strings.TrimLeft el [SP; TAB; CR; LF]) [SP; TAB; CR; LF])
    as (suf & Hsuf & _).
  rewrite Hpre, Hsuf. apply in_or_app. right. apply in_or_app. left. exact H.
Qed.

Lemma firstn_incl (k : nat) (l : bytes) (c : ascii) : In c (firstn k l) -> In c l.
Proof.
  intros H. rewrite <- (firstn_skipn k l). apply in_or_app. left. exact H.
Qed.

Lemma skipn_incl (k : nat) (l : bytes) (c : ascii) : In c (skipn k l) -> In c l.
Proof.
  intros H. rewrite <- (firstn_skipn k l). apply in_or_app. right. exact H.
Qed.

(** One iteration neither makes bytes nor loses count of them. *)
Lemma next_token_parts (leader : ascii) (after token line' : bytes) :
  next_token leader after = Ok (token, line') ->
  length token + length line' <= S (length after) /\
  (forall c, In c token -> In c (leader :: after)) /\
  (forall c, In c line' -> In c (leader :: after)).
Proof.
  intros Hnext. destruct (is_quote leader) eqn:Hq.
  - rewrite (next_token_quote _ _ Hq) in Hnext.
    destruct (unescaped_quote_cases after false) as [(k & c & Hfirst)|Hnone].
    + rewrite (consumeString_first _ _ _ _ Hq Hfirst) in Hnext.
      destruct (Ascii.eqb c leader); [|discriminate].
      remember (skipn (S k) after) as tl eqn:Htl.
      injection Hnext as <- <-.
      destruct Hfirst as ((Hnth & _) & _).
      assert (Hk : k < length after) by (apply nth_error_Some; congruence).
      split; [|split].
      * pose proof (filter_length_le (fun x => negb (Ascii.eqb x BACKSLASH)) (firstn k after)) as H1.
        pose proof (cleanup_length tl) as H2.
        assert (H3 : length tl = length after - S k)
          by (rewrite Htl; apply length_skipn).
        rewrite length_firstn in H1.
        unfold strings.Replace_backslash. lia.
      * intros x Hx. right. apply filter_In in Hx. apply (firstn_incl k), Hx.
      * intros x Hx. right. apply (skipn_incl (S k)). rewrite <- Htl.
        apply cleanup_incl, Hx.
    + rewrite (consumeString_none _ _ Hq Hnone) in Hnext. injection Hnext as <- <-.
      split; [simpl; lia|]. split; [intros x Hx; right; exact Hx | intros x []].
  - rewrite (next_token_atom _ _ Hq) in Hnext.
    destruct (consumeAtom_split (leader :: after)) as (tok & rest & Hbuf & _ & _ & Hrun).
    rewrite Hrun in Hnext. injection Hnext as <- <-.
    split; [|split].
    + pose proof (cleanup_length rest) as H.
      apply (f_equal (@length ascii)) in Hbuf. rewrite length_app in Hbuf.
      simpl in Hbuf. lia.
    + intros x Hx. rewrite Hbuf. apply in_or_app. left. exact Hx.
    + intros x Hx. rewrite Hbuf. apply in_or_app. right. apply cleanup_incl, Hx.
Qed.

(** X9. A line has at most as many tokens as it has bytes, and its tokens
    together have at most as many bytes as the line. *)
Theorem tokenizeLine_bounds (line : bytes) (tokens : list bytes) :
  tokenizeLine line = Ok tokens ->
  length tokens <= length line /\ length (concat tokens) <= length line.
Proof.
  revert tokens. induction line as [|leader after IH] using line_ind; intros tokens.
  - rewrite tokenizeLine_nil. intros H. injection H as <-. simpl. lia.
  - rewrite tokenizeLine_cons.
    destruct (next_token leader after) as [[token line']|err|] eqn:Hnext;
      try discriminate.
    destruct (tokenizeLine line') as [ts|err|] eqn:Hrest; try discriminate.
    intros H. injection H as <-.
    destruct (IH _ _ eq_refl ts Hrest) as [Hn Hbytes].
    pose proof (next_token_shorter _ _ _ _ Hnext) as Hshort.
    destruct (next_token_parts _ _ _ _ Hnext) as (Hlen & _).
    simpl in *. rewrite length_app. lia.
Qed.

Lemma tokenizeLine_bounds_witness :
  length [lit "DEFINE"; lit "wn"; lit "hello world"] <=
    length (lit "DEFINE wn " ++ DQUOTE :: lit "hello world" ++ [DQUOTE]) /\
  length (concat [lit "DEFINE"; lit "wn"; lit "hello world"]) <=
    length (lit "DEFINE wn " ++ DQUOTE :: lit "hello world" ++ [DQUOTE]).
Proof.
  apply (tokenizeLine_bounds
           (lit "DEFINE wn " ++ DQUOTE :: lit "hello world" ++ [DQUOTE])
           [lit "DEFINE"; lit "wn"; lit "hello world"]).
  reflexivity.
Defined.

(** X10. The tokenizer makes no byte up: every byte of every token of a
    line is a byte of the line. *)
Theorem tokenizeLine_bytes (line : bytes) (tokens : list bytes) :
  tokenizeLine line = Ok tokens ->
  forall token c, In token tokens -> In c token -> In c line.
Proof.
  revert tokens. induction line as [|leader after IH] using line_ind; intros tokens.
  - rewrite tokenizeLine_nil. intros H. injection H as <-. intros token c [].
  - rewrite tokenizeLine_cons.
    destruct (next_token leader after) as [[token line']|err|] eqn:Hnext;
      try discriminate.
    destruct (tokenizeLine line') as [ts|err|] eqn:Hrest; try discriminate.
    intros H. injection H as <-.
    destruct (next_token_parts _ _ _ _ Hnext) as (_ & Htok & Hline).
    intros tok c [<-|Hin] Hc.
    + apply Htok, Hc.
    + apply Hline. apply (IH _ _ eq_refl ts Hrest tok c Hin Hc).
Qed.

Lemma tokenizeLine_bytes_witness :
  In "w"%char (lit "DEFINE wn hello").
Proof.
  apply (tokenizeLine_bytes (lit "DEFINE wn hello")
           [lit "DEFINE"; lit "wn"; lit "hello"] eq_refl (lit "wn")).
  - simpl. auto.
  - simpl. auto.
Defined.

Lemma is_quote_inv (c : ascii) : is_quote c = true -> c = SQUOTE \/ c = DQUOTE.
Proof.
  unfold is_quote. intros H. apply orb_true_iff in H.
  destruct H as [H|H]; apply Ascii.eqb_eq in H; auto.
Qed.

(** X11. Tokenizing fails only on a line that holds both quote
    characters: a line without single quote, or without double quote, is
    always tokenized. *)
Theorem tokenizeLine_fails_both_quotes (line : bytes) (err : error) :
  tokenizeLine line = Err err ->
  In SQUOTE line /\ In DQUOTE line.
Proof.
  induction line as [|leader after IH] using line_ind.
  - rewrite tokenizeLine_nil. discriminate.
  - rewrite tokenizeLine_cons.
    destruct (next_token leader after) as [[token line']|err0|] eqn:Hnext.
    + destruct (tokenizeLine line') as [ts|err1|] eqn:Hrest; try discriminate.
      destruct (next_token_parts _ _ _ _ Hnext) as (_ & _ & Hline).
      intros Herr. injection Herr as ->.
      destruct (IH _ _ eq_refl Hrest) as [Hs Hd]. split; apply Hline; assumption.
    + intros _. destruct (is_quote leader) eqn:Hq.
      * rewrite (next_token_quote _ _ Hq) in Hnext.
        destruct (unescaped_quote_cases after false) as [(k & c & Hfirst)|Hnone].
        -- rewrite (consumeString_first _ _ _ _ Hq Hfirst) in Hnext.
           destruct (Ascii.eqb_spec c leader) as [Heq|Hne]; [discriminate|].
           destruct Hfirst as ((Hnth & Hqc & _) & _).
           apply nth_error_In in Hnth.
           destruct (is_quote_inv _ Hq) as [->| ->], (is_quote_inv _ Hqc) as [->| ->];
             try congruence; split; simpl; auto.
        -- rewrite (consumeString_none _ _ Hq Hnone) in Hnext. discriminate.
      * rewrite (next_token_atom _ _ Hq) in Hnext.
        destruct (consumeAtom_split (leader :: after)) as (tok & rest & _ & _ & _ & Hrun).
        rewrite Hrun in Hnext. discriminate.
    + discriminate.
Qed.

Lemma tokenizeLine_fails_both_quotes_witness :
  In SQUOTE (DQUOTE :: lit "a'b" ++ [DQUOTE]) /\
  In DQUOTE (DQUOTE :: lit "a'b" ++ [DQUOTE]).
Proof.
  apply (tokenizeLine_fails_both_quotes (DQUOTE :: lit "a'b" ++ [DQUOTE]) bad_char).
  reflexivity.
Defined.

Lemma cleanup_head_not_space (el : bytes) : hd DOT (cleanup el) <> SP.
Proof.
  destruct (cleanup el) as [|c r] eqn:H; simpl; [discriminate|].
  pose proof (cleanup_trimmed el) as [Hhead _]. rewrite H in Hhead.
  intros ->. specialize (Hhead SP r eq_refl). discriminate.
Qed.

(** X12. A line without quote characters is always tokenized, into
    tokens that hold no space; and when the line does not begin with a
    space none of its tokens is empty, however many spaces separate
    them. *)
Theorem tokenizeLine_quote_free (line : bytes) :
  forallb (fun c => negb (is_quote c)) line = true ->
  exists tokens,
    tokenizeLine line = Ok tokens /\
    Forall (fun token => ~ In SP token) tokens /\
    (hd DOT line <> SP -> Forall (fun token => token <> []) tokens).
Proof.
  induction line as [|leader after IH] using line_ind; intros Hfree.
  - exists []. rewrite tokenizeLine_nil. repeat split; constructor.
  - rewrite forallb_forall in Hfree.
    assert (Hq : is_quote leader = false).
    { apply negb_true_iff, Hfree. left. reflexivity. }
    destruct (consumeAtom_split (leader :: after))
      as (tok & rest & Hbuf & Hnot & Hrest & Hrun).
    assert (Hnext : next_token leader after = Ok (tok, cleanup rest)).
    { rewrite next_token_atom by exact Hq. exact Hrun. }
    destruct (IH _ _ Hnext) as (ts & Hts & Hsp & Hne).
    { apply forallb_forall. intros c Hc. apply Hfree.
      rewrite Hbuf. apply in_or_app. right. apply cleanup_incl, Hc. }
    exists (tok :: ts). rewrite tokenizeLine_cons, Hnext, Hts.
    split; [reflexivity|]. split; [constructor; assumption|].
    cbn [hd]. intros Hleader. constructor.
    + intros ->. cbn [app] in Hbuf.
      destruct Hrest as [->|(rest' & ->)]; [discriminate|].
      injection Hbuf as -> _. congruence.
    + apply Hne, cleanup_head_not_space.
Qed.

Lemma tokenizeLine_quote_free_witness :
  exists tokens,
    tokenizeLine (lit "SHOW   DB " ++ [TAB]) = Ok tokens /\
    Forall (fun token => ~ In SP token) tokens /\
    (hd DOT (lit "SHOW   DB " ++ [TAB]) <> SP ->
     Forall (fun token => token <> []) tokens).
Proof.
  apply (tokenizeLine_quote_free (lit "SHOW   DB " ++ [TAB])).
  reflexivity.
Defined.

(** ** [parseLine] *)

(** X13. A line that begins with a space has an empty first token, so
    when [parseLine] accepts it the verb of the command is empty. *)
Theorem parseLine_leading_space (rest : bytes) (cmd : Command) :
  parseLine (SP :: rest) = Ok cmd -> Command_ cmd = [].
Proof.
  unfold parseLine.
  assert (Hstep : tokenizeLine (SP :: rest) =
                  prepend [] (tokenizeLine (cleanup (SP :: rest)))).
  { apply (tokenizeLine_atom_step [] rest); [intros [] | reflexivity]. }
  rewrite Hstep.
  destruct (tokenizeLine (cleanup (SP :: rest))) as [ts|err|]; simpl;
    try discriminate.
  intros H. injection H as <-. reflexivity.
Qed.

Lemma parseLine_leading_space_witness :
  Command_ (mkCommand [] [lit "show"; lit "db"]) = [].
Proof.
  apply (parseLine_leading_space (lit " show db")). reflexivity.
Defined.

Definition is_lower (c : ascii) : bool :=
  let n := nat_of_ascii c in (97 <=? n) && (n <=? 122).

Lemma upper_byte_not_lower (c : ascii) : is_lower (strings.upper_byte c) = false.
Proof. destruct c as [[] [] [] [] [] [] [] []]; reflexivity. Qed.

Lemma upper_byte_fixed (c : ascii) :
  is_lower c = false -> strings.upper_byte c = c.
Proof.
  unfold strings.upper_byte, is_lower. intros ->. reflexivity.
Qed.

Definition is_ascii (c : ascii) : bool := nat_of_ascii c <? 128.

(** X14. For a line whose first token is ASCII, the verb of the command
    that [parseLine] returns holds no lower-case ASCII letter, so
    upper-casing it again changes nothing, and it is as long as that first
    token. *)
Theorem parseLine_verb_upper (line : bytes) (cmd : Command)
  (first : bytes) (others : list bytes) :
  parseLine line = Ok cmd ->
  tokenizeLine line = Ok (first :: others) ->
  forallb is_ascii first = true ->
  forallb (fun c => negb (is_lower c)) (Command_ cmd) = true /\
  strings.ToUpper (Command_ cmd) = Command_ cmd /\
  length (Command_ cmd) = length first.
Proof.
  unfold parseLine. intros H Hrun _. rewrite Hrun in H.
  injection H as <-. cbn [Command_].
  split; [|split].
  - apply forallb_forall. intros c Hc. unfold strings.ToUpper in Hc.
    apply in_map_iff in Hc. destruct Hc as (x & <- & _).
    rewrite upper_byte_not_lower. reflexivity.
  - unfold strings.ToUpper. rewrite map_map. apply map_ext.
    intros c. apply upper_byte_fixed, upper_byte_not_lower.
  - unfold strings.ToUpper. apply length_map.
Qed.

Lemma parseLine_verb_upper_witness :
  forallb (fun c => negb (is_lower c)) (lit "DEFINE") = true /\
  strings.ToUpper (lit "DEFINE") = lit "DEFINE" /\
  length (lit "DEFINE") = length (lit "Define").
Proof.
  apply (parseLine_verb_upper (lit "Define wn Hello")
           (mkCommand (lit "DEFINE") [lit "wn"; lit "Hello"])
           (lit "Define") [lit "wn"; lit "Hello"]).
  - reflexivity.
  - reflexivity.
  - reflexivity.
Defined.

(** ** The read loop *)

Section ReadLoop.

Variable Server : Type.
Variable Name : Server -> bytes.
Variable handler_name : Type.
Variable GetHandler : Server -> Command -> option handler_name.
Variable registered : handler_name -> handler Server.
Variable unknownCommandHandler : handler Server.
Variable handshakeHandler : Session Server -> Session Server.

Local Abbreviation loop :=
  (Handle_loop Server handler_name GetHandler registered unknownCommandHandler).
Local Abbreviation dispatch :=
  (handleCommand Server handler_name GetHandler registered unknownCommandHandler).

(** The world after the iteration that reads [line]. *)
Definition after_line (w : world Server handler_name) (line : bytes)
  : world Server handler_name :=
  match parseLine (trim_line line) with
  | Ok command => fst (dispatch w command)
  | Err err =>
      mkWorld Server handler_name (session Server handler_name w)
        (calls Server handler_name w)
        (logged Server handler_name w ++ [LogError err])
  | Panic => w
  end.

(** The commands of the lines read before the first read that fails. *)
Fixpoint dispatched (reads : list read) : list Command :=
  match reads with
  | [] => []
  | ReadError _ :: _ => []
  | Line line :: reads' =>
      match parseLine (trim_line line) with
      | Ok command => command :: dispatched reads'
      | _ => dispatched reads'
      end
  end.

Definition call_arg (c : call handler_name) : Command :=
  match c with
  | CallRegistered _ _ arg => arg
  | CallUnknown _ arg => arg
  end.

Lemma loop_Line (line : bytes) (reads : list read) (w : world Server handler_name) :
  loop (Line line :: reads) w = loop reads (after_line w line).
Proof.
  unfold after_line. cbn [Handle_loop]. fold (trim_line line).
  destruct (trim_line line) as [|c l] eqn:Htrim.
  - rewrite parseLine_nil. reflexivity.
  - destruct (parseLine (c :: l)) as [command|err|] eqn:Hparse; try reflexivity.
    apply parseLine_panic_nil in Hparse. discriminate.
Qed.

Lemma after_line_calls (w : world Server handler_name) (line : bytes) :
  map call_arg (calls Server handler_name (after_line w line)) =
  map call_arg (calls Server handler_name w) ++ dispatched [Line line].
Proof.
  unfold after_line. cbn [dispatched].
  destruct (parseLine (trim_line line)) as [command|err|];
    try (cbn [calls]; rewrite app_nil_r; reflexivity).
  unfold handleCommand.
  destruct (GetHandler _ command) as [h|].
  - destruct (registered h _ command) as [s' copy]. cbn [fst calls].
    rewrite map_app. reflexivity.
  - destruct (unknownCommandHandler _ command) as [s' copy]. cbn [fst calls].
    rewrite map_app. reflexivity.
Qed.

(** X15. Reads compose in sequence: the loop run over [reads1] and then
    [reads2] is the loop run over [reads2] from the world that [reads1]
    leaves, as long as no read of [reads1] fails; once a read has failed
    the loop has returned and no later read is looked at. *)
Theorem Handle_loop_app (reads1 reads2 : list read) (w : world Server handler_name) :
  loop (reads1 ++ reads2) w =
  match fst (loop reads1 w) with
  | Waiting => loop reads2 (snd (loop reads1 w))
  | _ => loop reads1 w
  end.
Proof.
  revert w. induction reads1 as [|[line|err] reads1 IH]; intros w.
  - reflexivity.
  - cbn [app]. rewrite !loop_Line. apply IH.
  - reflexivity.
Qed.

(** X16. The handlers are called once for each line, read before the
    first failing read, that is not empty once trimmed and that
    [parseLine] accepts, in the order of the lines and with the parsed
    command as argument; no other call is made.  So the calls of a whole
    run of [Handle], whatever the handshake does, are those of the lines
    it reads. *)
Theorem Handle_loop_calls (reads : list read) :
  (forall w,
      map call_arg (calls Server handler_name (snd (loop reads w))) =
      map call_arg (calls Server handler_name w) ++ dispatched reads) /\
  (forall now server,
      map call_arg
        (calls Server handler_name
           (snd (Handle Server Name handler_name GetHandler registered
                   unknownCommandHandler handshakeHandler now server reads))) =
      dispatched reads).
Proof.
  assert (Hloop : forall w,
             map call_arg (calls Server handler_name (snd (loop reads w))) =
             map call_arg (calls Server handler_name w) ++ dispatched reads).
  { induction reads as [|[line|err] reads IH]; intros w.
    - cbn. rewrite app_nil_r. reflexivity.
    - rewrite loop_Line, IH, after_line_calls. cbn [dispatched].
      rewrite <- app_assoc.
      destruct (parseLine (trim_line line)); reflexivity.
    - cbn. rewrite app_nil_r. reflexivity. }
  split; [exact Hloop|].
  intros now server. unfold Handle. cbn zeta. rewrite Hloop. reflexivity.
Qed.

End ReadLoop.

(** ** [WriteCode] *)

From Stdlib Require ZArith DecimalString.

(** The verb [%d] of an [int]: its decimal digits, after a minus sign when
    it is negative. *)
Definition format_d (code : BinNums.Z) : bytes :=
  lit (DecimalString.NilZero.string_of_int (BinInt.Z.to_int code)).

Section Codes.

Variable Server : Type.

(** [PrintfLine] of the format [%d %s]: the code, a space, the message. *)
Definition WriteCode (s : Session Server) (code : BinNums.Z) (message : bytes)
  : Session Server :=
  mkSession Server (MsgId Server s) (Client Server s)
    (textproto.PrintfLine (Connection Server s) (format_d code ++ SP :: message))
    (DictServer Server s) (Options Server s).

Definition digit (n : nat) : ascii := ascii_of_nat (48 + n).

Lemma format_d_three_digits :
  forallb
    (fun n => bytes_eqb (format_d (BinInt.Z.of_nat n))
                [digit (n / 100); digit ((n / 10) mod 10); digit (n mod 10)])
    (seq 100 900) = true.
Proof. vm_compute. reflexivity. Qed.

(** X17. With a status code of three digits, from 100 to 999, [WriteCode]
    adds to the connection exactly one line: the three digits of the code,
    a space, the message as it is, and CR LF; the rest of the session is
    left as it was. *)
Theorem WriteCode_line (s : Session Server) (n : nat) (message : bytes) :
  100 <= n <= 999 ->
  Connection Server (WriteCode s (BinInt.Z.of_nat n) message) =
    Connection Server s ++
    [digit (n / 100); digit ((n / 10) mod 10); digit (n mod 10)] ++
    SP :: message ++ [CR; LF] /\
  Options Server (WriteCode s (BinInt.Z.of_nat n) message) = Options Server s /\
  Client Server (WriteCode s (BinInt.Z.of_nat n) message) = Client Server s.
Proof.
  intros Hn. split; [|split; reflexivity].
  pose proof format_d_three_digits as H. rewrite forallb_forall in H.
  specialize (H n). unfold bytes_eqb in H.
  destruct (list_eq_dec ascii_dec (format_d (BinInt.Z.of_nat n)) _) as [Heq|_].
  - unfold WriteCode, textproto.PrintfLine. cbn [Connection].
    rewrite Heq, <- !app_assoc. reflexivity.
  - assert (Hin : In n (seq 100 900)) by (apply in_seq; lia).
    specialize (H Hin). discriminate.
Qed.

End Codes.

Lemma WriteCode_line_witness :
  Connection unit
    (WriteCode unit (mkSession unit [] [] [] tt []) (BinInt.Z.of_nat 250) (lit "ok")) =
    Connection unit (mkSession unit [] [] [] tt []) ++
    [digit (250 / 100); digit ((250 / 10) mod 10); digit (250 mod 10)] ++
    SP :: lit "ok" ++ [CR; LF] /\
  Options unit
    (WriteCode unit (mkSession unit [] [] [] tt []) (BinInt.Z.of_nat 250) (lit "ok")) =
    Options unit (mkSession unit [] [] [] tt []) /\
  Client unit
    (WriteCode unit (mkSession unit [] [] [] tt []) (BinInt.Z.of_nat 250) (lit "ok")) =
    Client unit (mkSession unit [] [] [] tt []).
Proof.
  apply (WriteCode_line unit (mkSession unit [] [] [] tt []) 250 (lit "ok")). lia.
Defined.

(** ** [generateMsgId] *)

Lemma split_at_dot (a b x y : bytes) :
  ~ In DOT a -> ~ In DOT b ->
  a ++ DOT :: x = b ++ DOT :: y ->
  a = b /\ x = y.
Proof.
  revert b. induction a as [|c a IH]; intros [|d b] Ha Hb H; cbn [app] in H.
  - injection H as ->. split; reflexivity.
  - injection H as <- _. exfalso. apply Hb. left. reflexivity.
  - injection H as -> _. exfalso. apply Ha. left. reflexivity.
  - injection H as -> H.
    destruct (IH b) as [-> ->]; [| |exact H|split; reflexivity].
    + intros Hin. apply Ha. right. exact Hin.
    + intros Hin. apply Hb. right. exact Hin.
Qed.

(** X18. A message id tells the reading of the clock and the name of the
    server it was made from: two ids made from decimal readings (texts
    without a dot) are equal only when the readings are equal and the
    names are equal. *)
Theorem generateMsgId_injective (Server : Type) (Name : Server -> bytes)
  (now1 now2 : bytes) (server1 server2 : Server) :
  ~ In DOT now1 -> ~ In DOT now2 ->
  generateMsgId Server Name now1 server1 = generateMsgId Server Name now2 server2 ->
  now1 = now2 /\ Name server1 = Name server2.
Proof.
  intros H1 H2 H. unfold generateMsgId in H.
  change (lit ".0@") with (DOT :: lit "0@") in H. cbn [app] in H.
  destruct (split_at_dot _ _ _ _ H1 H2 H) as [-> Hname].
  split; [reflexivity|]. apply (app_inv_head _ _ _ Hname).
Qed.

Lemma generateMsgId_injective_witness :
  lit "1700000000000000000" = lit "1700000000000000000" /\
  (fun _ : unit => lit "dict") tt = (fun _ : unit => lit "dict") tt.
Proof.
  apply (generateMsgId_injective unit (fun _ => lit "dict")
           (lit "1700000000000000000") (lit "1700000000000000000") tt tt).
  - intros H. simpl in H. repeat (destruct H as [H|H]; [discriminate|]). exact H.
  - intros H. simpl in H. repeat (destruct H as [H|H]; [discriminate|]). exact H.
  - reflexivity.
Defined.

(** ** The line left to read *)

Lemma trimmed_nil : trimmed [].
Proof.
  split; [discriminate|]. intros r c H. destruct r; discriminate.
Qed.

Lemma next_token_trimmed (leader : ascii) (after token line' : bytes) :
  next_token leader after = Ok (token, line') -> trimmed line'.
Proof.
  intros Hnext. destruct (is_quote leader) eqn:Hq.
  - rewrite (next_token_quote _ _ Hq) in Hnext.
    destruct (unescaped_quote_cases after false) as [(k & c & Hfirst)|Hnone].
    + rewrite (consumeString_first _ _ _ _ Hq Hfirst) in Hnext.
      destruct (Ascii.eqb c leader); [|discriminate].
      remember (skipn (S k) after) as tl.
      injection Hnext as _ <-. apply cleanup_trimmed.
    + rewrite (consumeString_none _ _ Hq Hnone) in Hnext.
      injection Hnext as _ <-. apply trimmed_nil.
  - rewrite (next_token_atom _ _ Hq) in Hnext.
    destruct (consumeAtom_split (leader :: after)) as (tok & rest & _ & _ & _ & Hrun).
    rewrite Hrun in Hnext. injection Hnext as _ <-. apply cleanup_trimmed.
Qed.

(** X19. After its first iteration the loop of [tokenizeLine] always
    finds the line cleaned up: once a token has been built, what is left
    to read neither begins nor ends with white space. *)
Theorem reaches_trimmed (line0 line : bytes) (tokens : list bytes) :
  reaches line0 line tokens ->
  tokens <> [] ->
  trimmed line.
Proof.
  intros Hreach Hne.
  destruct Hreach as [|leader after built token line' _ Hnext]; [congruence|].
  apply (next_token_trimmed _ _ _ _ Hnext).
Qed.

Lemma reaches_trimmed_witness : trimmed (lit "wn  x").
Proof.
  apply (reaches_trimmed (lit "DEFINE   wn  x ") (lit "wn  x") ([] ++ [lit "DEFINE"])).
  - apply (reaches_next _ "D"%char (lit "EFINE   wn  x ") [] (lit "DEFINE") (lit "wn  x")).
    + apply reaches_start.
    + reflexivity.
  - discriminate.
Defined.

(** ** The dot-stuffed block of [WriteTextBlock] *)

(** [a] is the output up to the beginning of a line. *)
Definition line_start (a : bytes) : Prop :=
  a = [] \/ exists a', a = a' ++ [LF].

(** Every dot that begins a line of [out] is followed by another dot. *)
Definition dots_doubled (out : bytes) : Prop :=
  forall a b, out = a ++ DOT :: b -> line_start a -> exists b', b = DOT :: b'.

Lemma split_dot (out chunk a b : bytes) :
  out ++ chunk = a ++ DOT :: b ->
  (exists l, out = a ++ DOT :: l /\ b = l ++ chunk) \/
  (exists l, a = out ++ l /\ chunk = l ++ DOT :: b).
Proof.
  intros H. apply app_eq_app in H. destruct H as [l [[H1 H2]|[H1 H2]]].
  - destruct l as [|x l].
    + right. exists []. rewrite app_nil_r in H1. subst a.
      rewrite app_nil_r. split; [reflexivity | symmetry; exact H2].
    + injection H2 as <- ->. left. exists l. split; [exact H1 | reflexivity].
  - right. exists l. split; assumption.
Qed.

Lemma not_line_start_snoc (x : bytes) (c : ascii) :
  c <> LF -> ~ line_start (x ++ [c]).
Proof.
  intros Hc [H|[a' H]].
  - destruct x; discriminate.
  - apply app_inj_tail in H. destruct H as [_ H]. contradiction.
Qed.

Lemma dots_doubled_nil : dots_doubled [].
Proof. intros a b H. destruct a; discriminate. Qed.

Lemma dots_doubled_plain (out chunk : bytes) :
  dots_doubled out -> ~ In DOT chunk -> dots_doubled (out ++ chunk).
Proof.
  intros Hout Hno a b H Hstart.
  destruct (split_dot _ _ _ _ H) as [(l & Ho & ->)|(l & _ & Hc)].
  - destruct (Hout a l Ho Hstart) as [b' ->]. exists (b' ++ chunk). reflexivity.
  - exfalso. apply Hno. rewrite Hc. apply in_or_app. right. left. reflexivity.
Qed.

Lemma dots_doubled_inside (out : bytes) :
  dots_doubled out -> ~ line_start out -> dots_doubled (out ++ [DOT]).
Proof.
  intros Hout Hmid a b H Hstart.
  destruct (split_dot _ _ _ _ H) as [(l & Ho & ->)|(l & Ha & Hc)].
  - destruct (Hout a l Ho Hstart) as [b' ->]. exists (b' ++ [DOT]). reflexivity.
  - destruct l as [|x l].
    + rewrite app_nil_r in Ha. subst a. contradiction.
    + injection Hc as _ Hc. destruct l; discriminate.
Qed.

Lemma dots_doubled_stuffed (out : bytes) :
  dots_doubled out -> dots_doubled (out ++ [DOT; DOT]).
Proof.
  intros Hout a b H Hstart.
  destruct (split_dot _ _ _ _ H) as [(l & Ho & ->)|(l & Ha & Hc)].
  - destruct (Hout a l Ho Hstart) as [b' ->]. exists (b' ++ [DOT; DOT]). reflexivity.
  - destruct l as [|x l].
    + injection Hc as <-. exists []. reflexivity.
    + injection Hc as <- Hc. exfalso.
      destruct l as [|y l]; [|injection Hc as _ Hc; destruct l; discriminate].
      subst a. apply (not_line_start_snoc out DOT); [discriminate | exact Hstart].
Qed.

(** What the loop of [dotWriter.Write] keeps true of the state and of the
    bytes written: in the middle of a line the output is not at a line
    start. *)
Definition writer_inv (st : textproto.wstate) (out : bytes) : Prop :=
  dots_doubled out /\
  (st = textproto.wstateData \/ st = textproto.wstateCR -> ~ line_start out).

Lemma write_byte_inv (st st' : textproto.wstate) (c : ascii) (out chunk : bytes) :
  textproto.write_byte st c = (st', chunk) ->
  writer_inv st out ->
  writer_inv st' (out ++ chunk).
Proof.
  intros Hbyte [Hdd Hmid].
  assert (Hplain : forall x, x <> DOT -> x <> LF ->
                     dots_doubled (out ++ [x]) /\ ~ line_start (out ++ [x])).
  { intros x Hx Hlf. split; [|apply not_line_start_snoc, Hlf].
    apply dots_doubled_plain; [exact Hdd|]. intros [H|[]]. congruence. }
  assert (Hcrlf : dots_doubled (out ++ [CR; LF])).
  { apply dots_doubled_plain; [exact Hdd|].
    intros [H|[H|[]]]; discriminate. }
  assert (Hlf : dots_doubled (out ++ [LF])).
  { apply dots_doubled_plain; [exact Hdd|]. intros [H|[]]. discriminate. }
  assert (Hstuffed : writer_inv textproto.wstateData (out ++ [DOT; DOT])).
  { split; [apply dots_doubled_stuffed, Hdd|]. intros _.
    change (out ++ [DOT; DOT]) with (out ++ [DOT] ++ [DOT]). rewrite app_assoc.
    apply not_line_start_snoc. discriminate. }
  assert (Hinside : ~ line_start out ->
                    writer_inv textproto.wstateData (out ++ [DOT])).
  { intros H. split; [apply dots_doubled_inside; assumption|].
    intros _. apply not_line_start_snoc. discriminate. }
  unfold textproto.write_byte, textproto.data_case in Hbyte.
  destruct (Ascii.eqb_spec c LF) as [->|Hnlf].
  - destruct st; cbn in Hbyte; injection Hbyte as <- <-;
      (split; [assumption | intros [H|H]; discriminate]).
  - destruct (Ascii.eqb_spec c DOT) as [->|Hndot].
    + destruct st; cbn in Hbyte; injection Hbyte as <- <-;
        try exact Hstuffed; apply Hinside, Hmid; auto.
    + destruct (Hplain c Hndot Hnlf) as [H1 H2].
      destruct st; cbn in Hbyte; destruct (Ascii.eqb c CR);
        injection Hbyte as <- <-; (split; [exact H1 | intros _; exact H2]).
Qed.

Lemma Write_inv (b : bytes) :
  forall st w st' w',
    textproto.Write st w b = (st', w') ->
    writer_inv st w ->
    writer_inv st' w'.
Proof.
  induction b as [|c b IH]; intros st w st' w'; simpl.
  - intros H Hinv. injection H as <- <-. exact Hinv.
  - destruct (textproto.write_byte st c) as [st1 chunk] eqn:Hbyte.
    intros H Hinv. apply (IH _ _ _ _ H).
    apply (write_byte_inv _ _ _ _ _ Hbyte Hinv).
Qed.

(** X20. The payload cannot end the block early: in the block that
    [WriteTextBlock] writes for any payload, a line that begins with a dot
    followed by CR, that is a line holding a dot alone, is the last line
    of the block. *)
Theorem dot_block_one_terminator (stream a b : bytes) :
  dot_block stream = a ++ DOT :: CR :: b ->
  line_start a ->
  b = [LF].
Proof.
  unfold dot_block.
  destruct (textproto.Write textproto.wstateBegin [] stream) as [st out] eqn:Hrun.
  assert (Hinv : writer_inv st out).
  { apply (Write_inv _ _ _ _ _ Hrun). split; [apply dots_doubled_nil|].
    intros [H|H]; discriminate. }
  destruct Hinv as [Hdd _]. rewrite Close_app. intros H Hstart.
  destruct (split_dot _ _ _ _ H) as [(l & Ho & Hb)|(l & _ & Hc)].
  - destruct (Hdd a l Ho Hstart) as [b' ->]. discriminate.
  - destruct st; cbn in Hc;
      repeat (destruct l as [|? l]; [injection Hc; intros; subst; try reflexivity;
                                     try discriminate|]; try discriminate;
              injection Hc as _ Hc);
      try discriminate; destruct l; discriminate.
Qed.

Lemma dot_block_one_terminator_witness : [LF] = [LF].
Proof.
  apply (dot_block_one_terminator (DOT :: [LF]) ([DOT; DOT; CR] ++ [LF]) [LF]).
  - reflexivity.
  - right. exists [DOT; DOT; CR]. reflexivity.
Defined.

(** Every line feed of [out] comes after a carriage return. *)
Definition crlf_only (out : bytes) : Prop :=
  forall a b, out = a ++ LF :: b -> exists a', a = a' ++ [CR].

Lemma crlf_only_app (out chunk : bytes) :
  crlf_only out ->
  (forall l b, chunk = l ++ LF :: b -> exists a', out ++ l = a' ++ [CR]) ->
  crlf_only (out ++ chunk).
Proof.
  intros Hout Hchunk a b H. apply app_eq_app in H.
  destruct H as [l [[H1 H2]|[H1 H2]]].
  - destruct l as [|x l].
    + rewrite app_nil_r in H1. subst a.
      destruct (Hchunk [] b (eq_sym H2)) as [a' Ha']. rewrite app_nil_r in Ha'.
      exists a'. exact Ha'.
    + injection H2 as <- _. apply (Hout a l H1).
  - subst a. apply (Hchunk l b H2).
Qed.

Lemma crlf_only_plain (out chunk : bytes) :
  crlf_only out -> ~ In LF chunk -> crlf_only (out ++ chunk).
Proof.
  intros Hout Hno. apply crlf_only_app; [exact Hout|].
  intros l b H. exfalso. apply Hno. rewrite H.
  apply in_or_app. right. left. reflexivity.
Qed.

Lemma crlf_only_crlf (out tl : bytes) :
  crlf_only out -> ~ In LF tl -> crlf_only (out ++ [CR; LF] ++ tl).
Proof.
  intros Hout Hno. apply crlf_only_app; [exact Hout|].
  intros l b H. destruct l as [|x l]; [discriminate|].
  injection H as <- H. destruct l as [|y l].
  - exists out. reflexivity.
  - injection H as _ H. exfalso. apply Hno. rewrite H.
    apply in_or_app. right. left. reflexivity.
Qed.

Definition writer_crlf (st : textproto.wstate) (out : bytes) : Prop :=
  crlf_only out /\
  (st = textproto.wstateCR -> exists o, out = o ++ [CR]).

Lemma write_byte_crlf (st st' : textproto.wstate) (c : ascii) (out chunk : bytes) :
  textproto.write_byte st c = (st', chunk) ->
  writer_crlf st out ->
  writer_crlf st' (out ++ chunk).
Proof.
  intros Hbyte [Hok Hcr].
  assert (Hpair : crlf_only (out ++ [CR; LF])).
  { apply (crlf_only_crlf out [] Hok). intros []. }
  unfold textproto.write_byte, textproto.data_case in Hbyte.
  destruct (Ascii.eqb_spec c LF) as [->|Hnlf].
  - destruct st; cbn in Hbyte; injection Hbyte as <- <-;
      (split; [|discriminate]); try exact Hpair.
    apply crlf_only_app; [exact Hok|].
    intros l b H. destruct l as [|x l].
    + rewrite app_nil_r. apply Hcr. reflexivity.
    + injection H as _ H. destruct l; discriminate.
  - assert (Hone : crlf_only (out ++ [c])).
    { apply crlf_only_plain; [exact Hok|]. intros [H|[]]. congruence. }
    assert (Htwo : crlf_only (out ++ [DOT; c])).
    { apply crlf_only_plain; [exact Hok|].
      intros [H|[H|[]]]; [discriminate | congruence]. }
    destruct (Ascii.eqb_spec c CR) as [->|Hncr].
    + destruct st; cbn in Hbyte; injection Hbyte as <- <-;
        (split; [exact Hone|]); try discriminate;
        intros _; exists out; reflexivity.
    + destruct st; cbn in Hbyte; destruct (Ascii.eqb c DOT);
        injection Hbyte as <- <-;
        (split; [first [exact Hone | exact Htwo] | discriminate]).
Qed.

Lemma Write_crlf (b : bytes) :
  forall st w st' w',
    textproto.Write st w b = (st', w') ->
    writer_crlf st w ->
    writer_crlf st' w'.
Proof.
  induction b as [|c b IH]; intros st w st' w'; simpl.
  - intros H Hinv. injection H as <- <-. exact Hinv.
  - destruct (textproto.write_byte st c) as [st1 chunk] eqn:Hbyte.
    intros H Hinv. apply (IH _ _ _ _ H).
    apply (write_byte_crlf _ _ _ _ _ Hbyte Hinv).
Qed.

Lemma crlf_only_dot_line (out : bytes) :
  crlf_only out -> crlf_only (out ++ [DOT; CR; LF]).
Proof.
  intros Hok. apply crlf_only_app; [exact Hok|].
  intros l b H. destruct l as [|x l]; [discriminate|]. injection H as <- H.
  destruct l as [|y l]; [discriminate|]. injection H as <- H.
  destruct l as [|z l].
  - exists (out ++ [DOT]). rewrite <- app_assoc. reflexivity.
  - injection H as _ H. destruct l; discriminate.
Qed.

(** X21. Every line of the block that [WriteTextBlock] writes for a
    payload ends with CR LF: a line feed of the payload that no carriage
    return comes before is given one, so no line feed of the block stands
    without a carriage return before it. *)
Theorem dot_block_crlf (stream a b : bytes) :
  dot_block stream = a ++ LF :: b ->
  exists a', a = a' ++ [CR].
Proof.
  unfold dot_block.
  destruct (textproto.Write textproto.wstateBegin [] stream) as [st out] eqn:Hrun.
  assert (Hinv : writer_crlf st out).
  { apply (Write_crlf _ _ _ _ _ Hrun). split; [|discriminate].
    intros x y H. destruct x; discriminate. }
  destruct Hinv as [Hok Hcr]. revert a b.
  change (crlf_only (textproto.Close st out)).
  assert (Hpair : crlf_only (out ++ [CR; LF])).
  { apply (crlf_only_crlf out [] Hok). intros []. }
  destruct st; cbn [textproto.Close app].
  - change (out ++ [CR; LF; DOT; CR; LF]) with (out ++ [CR; LF] ++ [DOT; CR; LF]).
    rewrite app_assoc. apply crlf_only_dot_line, Hpair.
  - apply crlf_only_dot_line, Hok.
  - change (out ++ [LF; DOT; CR; LF]) with (out ++ [LF] ++ [DOT; CR; LF]).
    rewrite app_assoc. apply crlf_only_dot_line.
    apply crlf_only_app; [exact Hok|].
    intros l b H. destruct l as [|x l].
    + rewrite app_nil_r. apply Hcr. reflexivity.
    + injection H as _ H. destruct l; discriminate.
  - change (out ++ [CR; LF; DOT; CR; LF]) with (out ++ [CR; LF] ++ [DOT; CR; LF]).
    rewrite app_assoc. apply crlf_only_dot_line, Hpair.
Qed.

Lemma dot_block_crlf_witness : exists a', lit "a" ++ [CR] = a' ++ [CR].
Proof.
  apply (dot_block_crlf (lit "a" ++ LF :: lit "b") (lit "a" ++ [CR])
           (lit "b" ++ [CR; LF; DOT; CR; LF])).
  reflexivity.
Defined.
